(** * Caching workshop: a verification development

    Shallow embedding of the caching code of the repository
    ([app/utils/calculator.py], [app/utils/redis_cache.py],
    [app/models/products.py]) and the properties stated about it. *)

From Stdlib Require Import ZArith Lia List String Ascii Bool.
From Stdlib Require Import DecimalString DecimalPos DecimalZ.
From stdpp Require Import gmap strings list fin_maps sorting.
From Equations Require Import Equations.

Local Open Scope Z_scope.

(* ===================================================================== *)
(** * [utils/calculator.py] *)
(* ===================================================================== *)

Module Calculator.

(** [fibonacci_uncached(n)]: Python integers are unbounded, hence [Z].
    The recursion is on [n - 1] and [n - 2] for [n > 1]. *)
Equations? fibonacci_uncached (n : Z) : Z by wf (Z.to_nat n) lt :=
  fibonacci_uncached n with Z_le_gt_dec n 1 => {
    | left _ => n
    | right _ => fibonacci_uncached (n - 1) + fibonacci_uncached (n - 2) }.
Proof. all: lia. Qed.

(** ** [functools.lru_cache(maxsize=128)]

    The bounded cache of the decorator: a list of (argument, result)
    pairs, most recently used first. *)
Definition maxsize : nat := 128.

Definition lru := list (Z * Z).

Fixpoint cache_get (k : Z) (c : lru) : option Z :=
  match c with
  | [] => None
  | (k', v) :: c' => if Z.eqb k k' then Some v else cache_get k c'
  end.

Fixpoint cache_remove (k : Z) (c : lru) : lru :=
  match c with
  | [] => []
  | (k', v) :: c' => if Z.eqb k k' then c' else (k', v) :: cache_remove k c'
  end.

(** A hit moves the link to the front of the queue. *)
Definition move_to_front (k v : Z) (c : lru) : lru := (k, v) :: cache_remove k c.

(** After the user function returned: nothing when the key was added in the
    meantime, else the oldest link is dropped when the cache is full, and the
    new link goes to the front. *)
Definition cache_store (k v : Z) (c : lru) : lru :=
  match cache_get k c with
  | Some _ => c
  | None =>
      if (maxsize <=? length c)%nat then (k, v) :: removelast c
      else (k, v) :: c
  end.

(** [fibonacci_cached]: the wrapper looks the argument up; on a miss it runs
    the body, whose recursive calls go through the wrapper again, and stores
    the result. The cache is threaded through the calls. *)
Equations? fibonacci_cached (n : Z) (c : lru) : Z * lru by wf (Z.to_nat n) lt :=
  fibonacci_cached n c with cache_get n c => {
    | Some v => (v, move_to_front n v c)
    | None with Z_le_gt_dec n 1 => {
      | left _ => (n, cache_store n n c)
      | right _ with fibonacci_cached (n - 1) c => {
        | (a, c1) with fibonacci_cached (n - 2) c1 => {
          | (b, c2) => (a + b, cache_store n (a + b) c2) } } } }.
Proof. all: lia. Qed.

(** The cache after a sequence of calls, starting from the empty cache of a
    freshly imported module. *)
Definition after_calls (calls : list Z) : lru :=
  fold_left (fun c n => snd (fibonacci_cached n c)) calls [].

(** Every stored result is the value of the reference implementation. *)
Definition cache_sound (c : lru) : Prop :=
  Forall (fun kv => snd kv = fibonacci_uncached (fst kv)) c.

End Calculator.

(* ===================================================================== *)
(** * [utils/redis_cache.py]: the cache key *)
(* ===================================================================== *)

Module RedisCache.

Local Open Scope string_scope.

(** Argument values of a decorated call: [None], booleans, integers and
    strings. A string is a sequence of code points below 256. *)
Inductive pyval : Type :=
| PyNone
| PyBool (b : bool)
| PyInt (z : Z)
| PyStr (s : string).

Definition backslash : ascii := Eval cbv in ascii_of_nat 92.
Definition squote : ascii := Eval cbv in ascii_of_nat 39.
Definition dquote : ascii := Eval cbv in ascii_of_nat 34.

(** [repr] of an integer: decimal digits, with a leading minus sign. *)
Definition int_repr (z : Z) : string :=
  NilEmpty.string_of_int (Z.to_int z).

(** [str.isprintable] on one code point below 256. *)
Definition printable (c : ascii) : bool :=
  let n := N_of_ascii c in
  ((32 <=? n) && (n <=? 126) || (161 <=? n) && negb (n =? 173))%N.

Definition hex_digit (n : N) : ascii :=
  if (n <? 10)%N then ascii_of_N (48 + n) else ascii_of_N (87 + n).

(** One character of the body of a string [repr], for the chosen quote. *)
Definition escape_char (quote c : ascii) : string :=
  if (c =? quote)%char || (c =? backslash)%char
  then String backslash (String c EmptyString)
  else if (N_of_ascii c =? 9)%N then String backslash "t"
  else if (N_of_ascii c =? 10)%N then String backslash "n"
  else if (N_of_ascii c =? 13)%N then String backslash "r"
  else if printable c then String c EmptyString
  else String backslash
         (String "x"
            (String (hex_digit (N_of_ascii c / 16))
               (String (hex_digit (N_of_ascii c mod 16)) EmptyString))).

Fixpoint escape (quote : ascii) (s : string) : string :=
  match s with
  | EmptyString => EmptyString
  | String c s' => escape_char quote c ++ escape quote s'
  end.

Fixpoint contains (c : ascii) (s : string) : bool :=
  match s with
  | EmptyString => false
  | String c' s' => (c' =? c)%char || contains c s'
  end.

(** Single quotes, unless the string has a single quote and no double one. *)
Definition quote_for (s : string) : ascii :=
  if contains squote s && negb (contains dquote s) then dquote else squote.

Definition str_repr (s : string) : string :=
  let q := quote_for s in
  String q (escape q s ++ String q EmptyString).

Definition repr (v : pyval) : string :=
  match v with
  | PyNone => "None"
  | PyBool true => "True"
  | PyBool false => "False"
  | PyInt z => int_repr z
  | PyStr s => str_repr s
  end.

(** The texts of the items, joined with a comma and a space. *)
Fixpoint join_with {A : Type} (r : A -> string) (l : list A) : string :=
  match l with
  | [] => EmptyString
  | [a] => r a
  | a :: l' => r a ++ ", " ++ join_with r l'
  end.

(** [str(args)] of the tuple of positional arguments. *)
Definition tuple_repr (args : list pyval) : string :=
  match args with
  | [] => "()"
  | [v] => "(" ++ repr v ++ ",)"
  | _ => "(" ++ join_with repr args ++ ")"
  end.

(** [str(kwargs)] of the dict of keyword arguments, in insertion order, which
    is the order in which the call site wrote them. *)
Definition item_repr (kv : string * pyval) : string :=
  str_repr (fst kv) ++ ": " ++ repr (snd kv).

Definition dict_repr (kwargs : list (string * pyval)) : string :=
  "{" ++ join_with item_repr kwargs ++ "}".

(** [cache_key = f"{key_prefix}:{str(args)}:{str(kwargs)}"] *)
Definition cache_key (key_prefix : string) (args : list pyval)
    (kwargs : list (string * pyval)) : string :=
  key_prefix ++ ":" ++ tuple_repr args ++ ":" ++ dict_repr kwargs.

(** *** Devices of the proofs

    The characters of a string, and a decoder of one escaped character, used
    to show that [escape] loses nothing. *)
Abbreviation chars := list_ascii_of_string.

Definition hex_value (h : ascii) : N :=
  let n := N_of_ascii h in
  if (n <? 58)%N then (n - 48)%N else (n - 87)%N.

Definition unescape_char (l : list ascii) : option (ascii * list ascii) :=
  match l with
  | [] => None
  | c :: r =>
      if (c =? backslash)%char then
        match r with
        | [] => None
        | d :: r' =>
            if (d =? "x")%char then
              match r' with
              | h1 :: h2 :: r'' =>
                  Some (ascii_of_N (16 * hex_value h1 + hex_value h2), r'')
              | _ => None
              end
            else if (d =? "t")%char then Some (ascii_of_N 9, r')
            else if (d =? "n")%char then Some (ascii_of_N 10, r')
            else if (d =? "r")%char then Some (ascii_of_N 13, r')
            else Some (d, r')
        end
      else Some (c, r)
  end.

(** In a single-quoted body every single quote follows a backslash;
    [prev] tells whether the character before the list is a backslash. *)
Fixpoint quotes_escaped (prev : bool) (l : list ascii) : bool :=
  match l with
  | [] => true
  | c :: l' =>
      (if (c =? squote)%char then prev else true)
      && quotes_escaped (c =? backslash)%char l'
  end.

(** Characters of the [repr] of an integer. *)
Definition int_char (c : ascii) : bool :=
  let n := N_of_ascii c in ((48 <=? n) && (n <=? 57) || (n =? 45))%N.

(** The characters that stand before a value in a tuple or dict [repr]. *)
Definition opener (c : ascii) : bool :=
  ((c =? "(") || (c =? "{") || (c =? " "))%char.

(** The characters a value's [repr] can end with. *)
Definition closer (c : ascii) : bool :=
  int_char c || (c =? "e")%char || (c =? squote)%char || (c =? dquote)%char.

(** The last character of a [repr], by the kind of the value. *)
Definition last_class (v : pyval) (c : ascii) : Prop :=
  match v with
  | PyNone | PyBool _ => c = "e"%char
  | PyInt _ => int_char c = true
  | PyStr _ => c = squote \/ c = dquote
  end.

(** A list of characters that ends with an [opener]. *)
Definition after_opener (x : list ascii) : Prop :=
  exists x' c, x = (x' ++ [c])%list /\ opener c = true.

(** The text up to the place where the next item of a joined list starts:
    the bracket [o] for the first item, a comma and a space for the others. *)
Definition before {A : Type} (r : A -> string) (o : ascii)
    (x : list ascii) (l : list A) : list ascii :=
  match l with
  | [] => (x ++ [o])%list
  | _ => (x ++ o :: chars (join_with r l) ++ chars ", ")%list
  end.

(** Two keyword dicts are equal in Python when they bind the same names to
    the same values, whatever the insertion order. *)
Definition same_kwargs (k1 k2 : list (string * pyval)) : Prop :=
  NoDup (map fst k1) /\ NoDup (map fst k2) /\
  forall kv, In kv k1 <-> In kv k2.

End RedisCache.

(* ===================================================================== *)
(** * The state the code runs in *)
(* ===================================================================== *)

Module World.

(** Exceptions the modelled code can raise. *)
Inductive exn : Type :=
| ZeroDivisionError
| ProducerError (msg : string)
| JSONDecodeError
| TypeError
| ResponseError
| RecursionError.

(** A row of the [products] table ([models/database.py]). The price and the
    creation time are numbers the code only stores and hands back. *)
Record row : Type := {
  id : Z;
  name : string;
  description : string;
  price : Z;
  created_at : Z }.

(** What the two cached readers of [models/products.py] return. *)
Inductive data : Type :=
| Page (products : list (Z * string * Z))
       (page per_page total pages : Z) (query_time : Z)
| Product (product : row) (query_time : Z).

(** [{'data': ..., 'timestamp': ...}] *)
Record cache_entry : Type := {
  ce_data : data;
  ce_timestamp : Z }.

(** A key of the Redis server: its value and, when one was set, the time at
    which it expires. *)
Record redis_entry : Type := {
  value : string;
  deadline : option Z }.

(** The clock counts milliseconds; [_cache] is the module-level dict of
    [models/products.py]; [redis] is the server behind [cache] and
    [redis_client]; [producer_calls] counts the runs of a fallback function. *)
Record world : Type := {
  clock : Z;
  table : list row;
  _cache : gmap string cache_entry;
  redis : gmap string redis_entry;
  producer_calls : nat }.

Definition set_clock (t : Z) (w : world) : world :=
  {| clock := t; table := table w; _cache := _cache w;
     redis := redis w; producer_calls := producer_calls w |}.

Definition set_table (t : list row) (w : world) : world :=
  {| clock := clock w; table := t; _cache := _cache w;
     redis := redis w; producer_calls := producer_calls w |}.

Definition set_cache (c : gmap string cache_entry) (w : world) : world :=
  {| clock := clock w; table := table w; _cache := c;
     redis := redis w; producer_calls := producer_calls w |}.

Definition set_redis (r : gmap string redis_entry) (w : world) : world :=
  {| clock := clock w; table := table w; _cache := _cache w;
     redis := r; producer_calls := producer_calls w |}.

Definition count_call (w : world) : world :=
  {| clock := clock w; table := table w; _cache := _cache w;
     redis := redis w; producer_calls := S (producer_calls w) |}.

(** [time.sleep]: the clock moves on by [ms] milliseconds. *)
Definition sleep (ms : Z) (w : world) : world := set_clock (clock w + ms) w.

End World.

(* ===================================================================== *)
(** * The Redis commands the code calls *)
(* ===================================================================== *)

(** Modelled from the spec: [models/products.py] uses [cache] without binding
    it anywhere. It is taken to be the client of the networked key-value
    backend of the specification, the Redis server that [update_product]
    reaches as [redis_client]; the commands below are the ones the code
    calls, with the meaning the server gives them. *)
Module Redis.
Import World.

(** An entry whose deadline has passed is gone, whether or not the server
    has removed it yet. *)
Definition live (now : Z) (e : redis_entry) : bool :=
  match deadline e with
  | None => true
  | Some d => now <? d
  end.

Definition lookup (w : world) (key : string) : option redis_entry :=
  match redis w !! key with
  | Some e => if live (clock w) e then Some e else None
  | None => None
  end.

(** [GET key] *)
Definition get (w : world) (key : string) : option string :=
  value <$> lookup w key.

(** [SETNX key val]: one atomic command; the new key has no deadline. *)
Definition setnx (key val : string) (w : world) : bool * world :=
  match lookup w key with
  | Some _ => (false, w)
  | None =>
      (true, set_redis (<[key := {| value := val; deadline := None |}]> (redis w)) w)
  end.

(** [EXPIRE key seconds]: a deadline for a key that exists; a timeout that is
    not positive deletes the key. *)
Definition expire (key : string) (seconds : Z) (w : world) : world :=
  match lookup w key with
  | Some e =>
      if seconds <=? 0 then set_redis (delete key (redis w)) w
      else set_redis (<[key := {| value := value e;
                                  deadline := Some (clock w + 1000 * seconds) |}]>
                        (redis w)) w
  | None => w
  end.

(** [SETEX key seconds val]: refused when the time is not positive. *)
Definition setex (key : string) (seconds : Z) (val : string) (w : world)
    : option world :=
  if 0 <? seconds
  then Some (set_redis (<[key := {| value := val;
                                    deadline := Some (clock w + 1000 * seconds) |}]>
                          (redis w)) w)
  else None.

(** [DEL key] *)
Definition del (key : string) (w : world) : world :=
  set_redis (delete key (redis w)) w.

(** [KEYS prefix*] followed by [DEL] of the keys found. *)
Definition del_prefix (prefix : string) (w : world) : world :=
  set_redis
    (filter (fun kv : string * redis_entry =>
               String.prefix prefix (fst kv) && live (clock w) (snd kv) = false)
            (redis w)) w.

End Redis.

(* ===================================================================== *)
(** * [models/products.py]: the in-process cache and the invalidation *)
(* ===================================================================== *)

(** The readers [get_products] and [get_product_by_id] and the writer
    [update_product]. A database query takes no time of its own in the
    model; the half second [get_product_by_id] sleeps is counted. *)

Module Products.
Import World.

Definition by_id (r1 r2 : row) : Prop := id r1 <= id r2.

#[local] Instance by_id_dec (r1 r2 : row) : Decision (by_id r1 r2) :=
  Z_le_dec (id r1) (id r2).

(** [SELECT id, name, price FROM products ORDER BY id LIMIT ? OFFSET ?]:
    a negative limit means no limit, a negative offset means none. *)
Definition select_page (limit offset : Z) (t : list row)
    : list (Z * string * Z) :=
  let skipped := drop (Z.to_nat offset) (merge_sort by_id t) in
  let taken := if limit <? 0 then skipped else take (Z.to_nat limit) skipped in
  map (fun r => (id r, name r, price r)) taken.

(** [SELECT * FROM products WHERE id = ?] and [fetchone]. *)
Definition select_by_id (product_id : Z) (t : list row) : option row :=
  find (fun r => id r =? product_id) t.

Definition products_page_key (page per_page : Z) : string :=
  ("products_page_" ++ RedisCache.int_repr page
   ++ "_per_page_" ++ RedisCache.int_repr per_page)%string.

Definition product_key (product_id : Z) : string :=
  ("product_" ++ RedisCache.int_repr product_id)%string.

(** The test both readers make: the key is in [_cache] and the entry is
    younger than [ttl_ms]. *)
Definition fresh_entry (use_cache : bool) (cache_key : string) (ttl_ms : Z)
    (w : world) : option data :=
  if use_cache then
    match _cache w !! cache_key with
    | Some e =>
        if clock w - ce_timestamp e <? ttl_ms then Some (ce_data e) else None
    | None => None
    end
  else None.

(** [get_products(page, per_page, use_cache)], time-to-live 30 seconds. *)
Definition get_products (page per_page : Z) (use_cache : bool) (w : world)
    : (data + exn) * world :=
  let cache_key := products_page_key page per_page in
  match fresh_entry use_cache cache_key 30000 w with
  | Some d => (inl d, w)
  | None =>
      let start_time := clock w in
      let offset := (page - 1) * per_page in
      let products := select_page per_page offset (table w) in
      let total := Z.of_nat (length (table w)) in
      let query_time := clock w - start_time in
      if per_page =? 0 then (inr ZeroDivisionError, w)
      else
        let result :=
          Page products page per_page total
               ((total + per_page - 1) / per_page) query_time in
        if use_cache
        then (inl result,
              set_cache (<[cache_key := {| ce_data := result;
                                           ce_timestamp := clock w |}]>
                           (_cache w)) w)
        else (inl result, w)
  end.

(** [get_product_by_id(product_id, use_cache)], time-to-live one minute;
    [None] is Python's [None]. *)
Definition get_product_by_id (product_id : Z) (use_cache : bool) (w : world)
    : option data * world :=
  let cache_key := product_key product_id in
  match fresh_entry use_cache cache_key 60000 w with
  | Some d => (Some d, w)
  | None =>
      let start_time := clock w in
      let w1 := sleep 500 w in
      match select_by_id product_id (table w1) with
      | None => (None, w1)
      | Some product =>
          let query_time := clock w1 - start_time in
          let result := Product product query_time in
          if use_cache
          then (Some result,
                set_cache (<[cache_key := {| ce_data := result;
                                             ce_timestamp := clock w1 |}]>
                             (_cache w1)) w1)
          else (Some result, w1)
      end
  end.

(** [UPDATE products SET ... WHERE id = ?] with the columns that were given. *)
Definition update_row (new_name : option string) (new_price : option Z)
    (new_description : option string) (r : row) : row :=
  {| id := id r;
     name := default (name r) new_name;
     description := default (description r) new_description;
     price := default (price r) new_price;
     created_at := created_at r |}.

(** [update_product(product_id, name, price, description)]: the row is
    updated, then the Redis keys are deleted; [False] when nothing was given. *)
Definition update_product (product_id : Z) (new_name : option string)
    (new_price : option Z) (new_description : option string) (w : world)
    : bool * world :=
  match new_name, new_price, new_description with
  | None, None, None => (false, w)
  | _, _, _ =>
      let w1 :=
        set_table
          (map (fun r => if id r =? product_id
                         then update_row new_name new_price new_description r
                         else r) (table w)) w in
      let w2 := Redis.del (product_key product_id) w1 in
      (true, Redis.del_prefix "products_list:" w2)
  end.

(** What can happen to the process between two requests: a call of one of
    the functions above, a row added to the table (nothing in the repository
    deletes one), time passing. *)
Inductive op : Type :=
| OpGetProducts (page per_page : Z) (use_cache : bool)
| OpGetProductById (product_id : Z) (use_cache : bool)
| OpUpdateProduct (product_id : Z) (new_name : option string)
    (new_price : option Z) (new_description : option string)
| OpInsertRow (r : row)
| OpTick (ms : N).

Definition run_op (o : op) (w : world) : world :=
  match o with
  | OpGetProducts page per_page use_cache =>
      snd (get_products page per_page use_cache w)
  | OpGetProductById product_id use_cache =>
      snd (get_product_by_id product_id use_cache w)
  | OpUpdateProduct product_id n p d => snd (update_product product_id n p d w)
  | OpInsertRow r => set_table (table w ++ [r]) w
  | OpTick ms => sleep (Z.of_N ms) w
  end.

Definition run_ops (ops : list op) (w : world) : world :=
  fold_left (fun w o => run_op o w) ops w.

(** The process right after the module was imported: [_cache = {}]. *)
Definition start (now : Z) (rows : list row) (r : gmap string redis_entry)
    : world :=
  {| clock := now; table := rows; _cache := ∅; redis := r;
     producer_calls := 0 |}.

(** A row as [init_db] writes it: [Product i], price [i * 10.99] kept in
    hundredths. *)
Definition sample_row (i : Z) : row :=
  {| id := i;
     name := ("Product " ++ RedisCache.int_repr i)%string;
     description := ("Description for product " ++ RedisCache.int_repr i)%string;
     price := i * 1099;
     created_at := 0 |}.

(** Every cached product has its row. *)
Definition cache_backed (w : world) : Prop :=
  forall (product_id : Z) (e : cache_entry),
    _cache w !! product_key product_id = Some e ->
    is_Some (select_by_id product_id (table w)).

End Products.

(* ===================================================================== *)
(** * [models/products.py]: [get_with_stampede_protection] *)
(* ===================================================================== *)

Module Stampede.
Import World.

Section WithJson.

(** [json.dumps] and [json.loads]; [None] stands for the exception each can
    raise on a value it cannot handle. *)
Context {V : Type} (dumps : V -> option string) (loads : string -> option V).

(** The fallback function computes from outside the cache: called at some
    time, it takes some milliseconds and returns a value or raises. *)
Definition producer : Type := Z -> N * (V + string).

Inductive outcome : Type :=
| Returned (v : V)
| Raised (e : exn).

Definition lock_key_of (key : string) : string := (key ++ ":lock")%string.

(** [return json.loads(cached_data)] *)
Definition loaded (cached_data : string) : outcome :=
  match loads cached_data with
  | Some v => Returned v
  | None => Raised JSONDecodeError
  end.

(** The body of the [try]: lines 156 to 158. *)
Definition produce_and_store (key : string) (ttl : Z)
    (fallback_function : producer) (w : world) : outcome * world :=
  let (elapsed, r) := fallback_function (clock w) in
  let w1 := sleep (Z.of_N elapsed) (count_call w) in
  match r with
  | inr msg => (Raised (ProducerError msg), w1)
  | inl fresh_data =>
      match dumps fresh_data with
      | None => (Raised TypeError, w1)
      | Some s =>
          match Redis.setex key ttl s w1 with
          | Some w2 => (Returned fresh_data, w2)
          | None => (Raised ResponseError, w1)
          end
      end
  end.

(** One caller running alone. [depth] is the number of frames the
    interpreter still allows: the function calls itself after each wait, and a
    call beyond the recursion limit raises [RecursionError]. *)
Fixpoint get_with_stampede_protection (depth : nat) (key : string) (ttl : Z)
    (fallback_function : producer) (lock_timeout : Z) (w : world)
    : outcome * world :=
  match depth with
  | O => (Raised RecursionError, w)
  | S depth' =>
      match Redis.get w key with
      | Some cached_data => (loaded cached_data, w)
      | None =>
          let lock_key := lock_key_of key in
          match Redis.setnx lock_key "locked" w with
          | (true, w1) =>
              let w2 := Redis.expire lock_key lock_timeout w1 in
              let (r, w3) := produce_and_store key ttl fallback_function w2 in
              (* finally *)
              (r, Redis.del lock_key w3)
          | (false, w1) =>
              get_with_stampede_protection depth' key ttl fallback_function
                lock_timeout (sleep 100 w1)
          end
      end
  end.

(** ** Several callers

    Each caller is at one of the places of the function where it talks to
    Redis, runs the fallback function or sleeps; one step is one such action,
    which Redis or the interpreter performs atomically. A caller that waits
    carries the number of frames it has left. *)
Inductive pc : Type :=
| AtGet (depth : nat)
| AtSetnx (depth : nat)
| AtExpire
| AtFallback
| Computing (until : Z) (r : V + string)
| AtSetex (fresh_data : V)
| AtRelease (r : outcome)
| Sleeping (until : Z) (depth : nat)
| Done (r : outcome).

Definition step_caller (key : string) (ttl : Z) (fallback_function : producer)
    (lock_timeout : Z) (p : pc) (w : world) : pc * world :=
  let lock_key := lock_key_of key in
  match p with
  | AtGet depth =>
      match Redis.get w key with
      | Some cached_data => (Done (loaded cached_data), w)
      | None => (AtSetnx depth, w)
      end
  | AtSetnx depth =>
      match Redis.setnx lock_key "locked" w with
      | (true, w1) => (AtExpire, w1)
      | (false, w1) => (Sleeping (clock w1 + 100) depth, w1)
      end
  | AtExpire => (AtFallback, Redis.expire lock_key lock_timeout w)
  | AtFallback =>
      let (elapsed, r) := fallback_function (clock w) in
      (Computing (clock w + Z.of_N elapsed) r, count_call w)
  | Computing until r =>
      if clock w <? until then (p, w)
      else match r with
           | inr msg => (AtRelease (Raised (ProducerError msg)), w)
           | inl fresh_data => (AtSetex fresh_data, w)
           end
  | AtSetex fresh_data =>
      match dumps fresh_data with
      | None => (AtRelease (Raised TypeError), w)
      | Some s =>
          match Redis.setex key ttl s w with
          | Some w1 => (AtRelease (Returned fresh_data), w1)
          | None => (AtRelease (Raised ResponseError), w)
          end
      end
  | AtRelease r => (Done r, Redis.del lock_key w)
  | Sleeping until depth =>
      if clock w <? until then (p, w)
      else match depth with
           | O => (Done (Raised RecursionError), w)
           | S depth' => (AtGet depth', w)
           end
  | Done r => (p, w)
  end.

(** What the scheduler can do: let caller [i] take its next step, or let
    time pass. A caller that crashed is one that is never run again. *)
Inductive event : Type :=
| Run (i : nat)
| Tick (ms : N).

Record system : Type := {
  callers : list pc;
  shared : world }.

Definition step (key : string) (ttl : Z) (fallback_function : producer)
    (lock_timeout : Z) (s : system) (ev : event) : system :=
  match ev with
  | Run i =>
      match callers s !! i with
      | Some p =>
          let (p', w') :=
            step_caller key ttl fallback_function lock_timeout p (shared s) in
          {| callers := <[i := p']> (callers s); shared := w' |}
      | None => s
      end
  | Tick ms =>
      {| callers := callers s; shared := sleep (Z.of_N ms) (shared s) |}
  end.

Definition run (key : string) (ttl : Z) (fallback_function : producer)
    (lock_timeout : Z) (schedule : list event) (s : system) : system :=
  fold_left (step key ttl fallback_function lock_timeout) schedule s.

(** [n] callers enter the function at the same time, each with [depth]
    frames left beyond the one it runs in. *)
Definition enter (n depth : nat) (w : world) : system :=
  {| callers := replicate n (AtGet depth); shared := w |}.

(** The caller has come back with a value. *)
Definition has_value (p : pc) : bool :=
  match p with Done (Returned _) => true | _ => false end.

(** A caller that has not got the lock: it waits, or it has used up its
    frames. *)
Definition waiting (p : pc) : Prop :=
  match p with
  | AtGet _ | AtSetnx _ | Sleeping _ _ => True
  | Done (Raised RecursionError) => True
  | _ => False
  end.

(** The lock as [SETNX] leaves it. *)
Definition held : redis_entry := {| value := "locked"; deadline := None |}.

(** Caller 0 has taken the lock and not yet set its expiry; nothing is
    published and the others wait. *)
Definition wedged (key : string) (s : system) : Prop :=
  Redis.get (shared s) key = None
  /\ redis (shared s) !! lock_key_of key = Some held
  /\ exists others, callers s = AtExpire :: others /\ Forall waiting others.

Definition never_runs (i : nat) (schedule : list event) : Prop :=
  Forall (fun ev => ev <> Run i) schedule.

End WithJson.

Arguments Returned {V} v.
Arguments Raised {V} e.

(** A world whose Redis server holds nothing. *)
Definition empty_world (now : Z) : world :=
  {| clock := now; table := []; _cache := ∅; redis := ∅;
     producer_calls := 0 |}.

(** A waiter's view when the holder of the lock of [key] never finishes and
    the lock carries no deadline. *)
Definition held_world (now : Z) (key : string) : world :=
  {| clock := now; table := []; _cache := ∅;
     redis := {[ lock_key_of key := {| value := "locked"; deadline := None |} ]};
     producer_calls := 0 |}.

End Stampede.

(* ===================================================================== *)
(** * [utils/redis_cache.py]: the decorator *)
(* ===================================================================== *)

Module Decorator.
Import World.

Section WithJson.
Context {V : Type} (dumps : V -> option string) (loads : string -> option V).

(** The decorated function: called with the arguments, it runs in the world
    and returns a value or raises. *)
Definition pyfun : Type :=
  list RedisCache.pyval -> list (string * RedisCache.pyval) -> world ->
  (V + exn) * world.

(** [return json.loads(cached_data)] *)
Definition decoded (cached_data : string) : V + exn :=
  match loads cached_data with
  | Some v => inl v
  | None => inr JSONDecodeError
  end.

(** Lines 27 to 33: the call of the original function and the store. *)
Definition call_and_store (cache_key : string) (ttl : Z) (f : pyfun)
    (args : list RedisCache.pyval) (kwargs : list (string * RedisCache.pyval))
    (w : world) : (V + exn) * world :=
  match f args kwargs w with
  | (inr e, w1) => (inr e, w1)
  | (inl result, w1) =>
      match dumps result with
      | None => (inr TypeError, w1)
      | Some s =>
          match Redis.setex cache_key ttl s w1 with
          | Some w2 => (inl result, w2)
          | None => (inr ResponseError, w1)
          end
      end
  end.

(** The wrapper that [redis_cache(key_prefix, ttl)] puts around [f]. *)
Definition redis_cache (key_prefix : string) (ttl : Z) (f : pyfun)
    (args : list RedisCache.pyval) (kwargs : list (string * RedisCache.pyval))
    (w : world) : (V + exn) * world :=
  let cache_key := RedisCache.cache_key key_prefix args kwargs in
  match Redis.get w cache_key with
  | Some cached_data => (decoded cached_data, w)
  | None => call_and_store cache_key ttl f args kwargs w
  end.

End WithJson.

(** What [get_products_redis] returns: the page without a query time. *)
Record page_result : Type := {
  pr_products : list (Z * string * Z);
  pr_page : Z;
  pr_per_page : Z;
  pr_total : Z;
  pr_pages : Z }.

(** The body of [get_products_redis], lines 117 to 137. *)
Definition get_products_redis_body (page per_page : Z) (w : world)
    : (page_result + exn) * world :=
  let offset := (page - 1) * per_page in
  let products := Products.select_page per_page offset (table w) in
  let total := Z.of_nat (length (table w)) in
  if per_page =? 0 then (inr ZeroDivisionError, w)
  else (inl {| pr_products := products; pr_page := page;
               pr_per_page := per_page; pr_total := total;
               pr_pages := (total + per_page - 1) / per_page |}, w).

(** The call [get_products_redis(page, per_page)] with two integers, as
    [@redis_cache('products_list', ttl=30)] wraps it. *)
Definition get_products_redis (dumps : page_result -> option string)
    (loads : string -> option page_result) (page per_page : Z) (w : world)
    : (page_result + exn) * world :=
  redis_cache dumps loads "products_list" 30
    (fun _ _ => get_products_redis_body page per_page)
    [RedisCache.PyInt page; RedisCache.PyInt per_page] [] w.

End Decorator.

(* ===================================================================== *)
(** * Reading the pages of [get_products] *)
(* ===================================================================== *)

Module Pagination.
Import World Products.

(** The table as [ORDER BY id] lists it, in the columns selected. *)
Definition listing (t : list row) : list (Z * string * Z) :=
  map (fun r => (id r, name r, price r)) (@merge_sort _ by_id by_id_dec t).

(** The ['products'] and ['pagination']['pages'] of a result. *)
Definition products_of (r : data + exn) : list (Z * string * Z) :=
  match r with
  | inl (Page products _ _ _ _ _) => products
  | _ => []
  end.

Definition pages_of (r : data + exn) : Z :=
  match r with
  | inl (Page _ _ _ _ pages _) => pages
  | _ => 0
  end.

(** [get_products(page, per_page, use_cache=False)['products']] *)
Definition fresh_page (per_page : Z) (w : world) (page : nat)
    : list (Z * string * Z) :=
  products_of (fst (get_products (Z.of_nat page) per_page false w)).

(** No page with [per_page = 0] is cached. *)
Definition no_zero_page (w : world) : Prop :=
  forall page : Z, _cache w !! products_page_key page 0 = None.

End Pagination.

(* ===================================================================== *)
(** * [models/database.py] *)
(* ===================================================================== *)

Module Database.
Import World.

(** A connection of [sqlite3]: the table as stored in the file and the table
    as the connection sees it. [INSERT] and [UPDATE] open a transaction and
    change the second only; [commit] stores it; closing the connection drops
    what was not committed. *)
Record connection : Type := {
  stored : list row;
  seen : list row }.

Definition connect (w : world) : connection :=
  {| stored := table w; seen := table w |}.

Definition commit (c : connection) : connection :=
  {| stored := seen c; seen := seen c |}.

(** [get_db_connection()]: the body runs on a fresh connection, which is
    closed whether the body returns or raises. *)
Definition get_db_connection {A : Type}
    (body : connection -> (A + exn) * connection) (w : world)
    : (A + exn) * world :=
  let (r, c) := body (connect w) in
  (r, set_table (stored c) w).

(** The id an [INTEGER PRIMARY KEY] gets: one more than the largest. *)
Definition next_id (t : list row) : Z :=
  1 + fold_right Z.max 0 (map id t).

(** [INSERT INTO products (name, description, price) VALUES (?, ?, ?)] with
    the values of the loop of [init_db]; the price [i * 10.99] is kept in
    hundredths. *)
Definition insert_sample (now : Z) (c : connection) (i : Z) : connection :=
  {| stored := stored c;
     seen := seen c ++
             [{| id := next_id (seen c);
                 name := ("Product " ++ RedisCache.int_repr i)%string;
                 description :=
                   ("Description for product " ++ RedisCache.int_repr i)%string;
                 price := i * 1099;
                 created_at := now |}] |}.

(** The body of [init_db]: the table is filled when it is empty. *)
Definition init_db_body (now : Z) (c : connection) : (unit + exn) * connection :=
  if (length (seen c) =? 0)%nat
  then (inl tt, fold_left (insert_sample now) (map Z.of_nat (seq 1 1000)) c)
  else (inl tt, c).

Definition init_db (w : world) : (unit + exn) * world :=
  get_db_connection (init_db_body (clock w)) w.

(** [update_product] up to its [conn.commit()], as a body of the same
    context manager. *)
Definition update_body (product_id : Z) (new_name : option string)
    (new_price : option Z) (new_description : option string)
    (c : connection) : (bool + exn) * connection :=
  match new_name, new_price, new_description with
  | None, None, None => (inl false, c)
  | _, _, _ =>
      (inl true,
       commit {| stored := stored c;
                 seen := map (fun r =>
                                if id r =? product_id
                                then Products.update_row new_name new_price
                                       new_description r
                                else r) (seen c) |})
  end.

End Database.

(* ===================================================================== *)
(** * Callers that hold the lock *)
(* ===================================================================== *)

Module Exclusion.
Import World Stampede.

Section WithValues.
Context {V : Type}.

(** The caller is between its [SETNX] and the end of its [finally]. *)
Definition in_section (p : pc (V:=V)) : Prop :=
  match p with
  | AtExpire | AtFallback | Computing _ _ | AtSetex _ | AtRelease _ => True
  | _ => False
  end.

(** The time a schedule lets pass. *)
Definition ticks (schedule : list event) : Z :=
  fold_right (fun ev t => match ev with
                          | Tick ms => Z.of_N ms + t
                          | Run _ => t
                          end) 0 schedule.

Definition at_most_one_holder (s : system (V:=V)) : Prop :=
  forall (i j : nat) (p q : pc),
    callers s !! i = Some p -> callers s !! j = Some q ->
    in_section p -> in_section q -> i = j.

(** The lock is there exactly while a caller holds it, and it does not
    expire before [bound]. *)
Definition exclusive (key : string) (bound : Z) (s : system (V:=V)) : Prop :=
  at_most_one_holder s
  /\ ((forall (i : nat) (p : pc), callers s !! i = Some p -> ~ in_section p) ->
      redis (shared s) !! lock_key_of key = None)
  /\ (forall (i : nat) (p : pc),
        callers s !! i = Some p -> in_section p ->
        exists e, redis (shared s) !! lock_key_of key = Some e
                  /\ match deadline e with
                     | None => True
                     | Some due => bound <= due
                     end).

End WithValues.

End Exclusion.

(* ===================================================================== *)
(** * Theorems *)
(* ===================================================================== *)

Section CalculatorFacts.
Import Calculator.

Lemma fibonacci_uncached_base (n : Z) : n <= 1 -> fibonacci_uncached n = n.
Proof. funelim (fibonacci_uncached n); intros; [reflexivity | lia]. Qed.

Lemma fibonacci_uncached_step (n : Z) :
  n > 1 ->
  fibonacci_uncached n = fibonacci_uncached (n - 1) + fibonacci_uncached (n - 2).
Proof. funelim (fibonacci_uncached n); intros; [lia | reflexivity]. Qed.

Lemma cache_get_sound (c : lru) (k v : Z) :
  cache_sound c -> cache_get k c = Some v -> v = fibonacci_uncached k.
Proof.
  unfold cache_sound. induction c as [|[k' v'] c IH]; simpl; [discriminate|].
  intros Hs Hg. apply Forall_cons_1 in Hs as [Hh Ht]. simpl in Hh.
  destruct (Z.eqb_spec k k') as [->|_].
  - congruence.
  - auto.
Qed.

Lemma cache_remove_sound (c : lru) (k : Z) :
  cache_sound c -> cache_sound (cache_remove k c).
Proof.
  unfold cache_sound. induction c as [|[k' v'] c IH]; simpl; [auto|].
  intros Hs. apply Forall_cons_1 in Hs as [Hh Ht].
  destruct (Z.eqb k k'); [assumption|]. constructor; auto.
Qed.

Lemma removelast_sound (c : lru) : cache_sound c -> cache_sound (removelast c).
Proof.
  unfold cache_sound. induction c as [|kv c IH]; simpl; [auto|].
  intros Hs. apply Forall_cons_1 in Hs as [Hh Ht].
  destruct c; [constructor|]. constructor; auto.
Qed.

Lemma cache_store_sound (c : lru) (k v : Z) :
  v = fibonacci_uncached k -> cache_sound c -> cache_sound (cache_store k v c).
Proof.
  intros Hv Hs. unfold cache_store.
  destruct (cache_get k c); [assumption|].
  destruct (maxsize <=? length c)%nat; apply Forall_cons_2; simpl;
    try assumption.
  now apply removelast_sound.
Qed.

Lemma move_to_front_sound (c : lru) (k v : Z) :
  v = fibonacci_uncached k -> cache_sound c -> cache_sound (move_to_front k v c).
Proof.
  intros Hv Hs. apply Forall_cons_2; simpl; [assumption|].
  now apply cache_remove_sound.
Qed.

Lemma removelast_length_pred (c : lru) :
  length (removelast c) = Nat.pred (length c).
Proof.
  induction c as [|kv c IH]; [reflexivity|].
  destruct c as [|kv' c]; [reflexivity|].
  change (removelast (kv :: kv' :: c)) with (kv :: removelast (kv' :: c)).
  simpl length in *. rewrite IH. reflexivity.
Qed.

(** The bound of the decorator is kept by every store. *)
Lemma cache_store_length (c : lru) (k v : Z) :
  (length c <= maxsize)%nat -> (length (cache_store k v c) <= maxsize)%nat.
Proof.
  intros Hl. unfold cache_store. destruct (cache_get k c); [assumption|].
  destruct (Nat.leb_spec maxsize (length c)); simpl.
  - rewrite removelast_length_pred. unfold maxsize in *. lia.
  - lia.
Qed.

Lemma fibonacci_cached_spec (n : Z) (c : lru) :
  cache_sound c ->
  fst (fibonacci_cached n c) = fibonacci_uncached n /\
  cache_sound (snd (fibonacci_cached n c)).
Proof.
  funelim (fibonacci_cached n c); intros Hs; simpl.
  - (* hit *)
    match goal with E : cache_get _ _ = Some _ |- _ =>
      pose proof (cache_get_sound _ _ _ Hs E) as -> end.
    split; [reflexivity|]. apply move_to_front_sound; auto.
  - (* miss, n <= 1 *)
    assert (Hn : fibonacci_uncached n = n)
      by (apply fibonacci_uncached_base; assumption).
    split; [symmetry; exact Hn|]. apply cache_store_sound; auto.
  - (* miss, n > 1 *)
    assert (Hn : fibonacci_uncached n
                 = fibonacci_uncached (n - 1) + fibonacci_uncached (n - 2))
      by (apply fibonacci_uncached_step; assumption).
    repeat match goal with
      | IH : cache_sound ?c' -> _, Hc : cache_sound ?c' |- _ =>
          specialize (IH Hc)
      | IH : _ /\ _ |- _ => destruct IH
      | E : fibonacci_cached ?m ?c' = _,
        IH : context [fibonacci_cached ?m ?c'] |- _ =>
          rewrite E in IH; simpl in IH
      end.
    split; [congruence|]. apply cache_store_sound; [congruence|assumption].
Qed.

Lemma after_calls_sound (calls : list Z) : cache_sound (after_calls calls).
Proof.
  unfold after_calls.
  assert (G : forall c, cache_sound c ->
            cache_sound (fold_left (fun c n => snd (fibonacci_cached n c)) calls c)).
  { induction calls as [|n calls IH]; simpl; intros c Hc; [assumption|].
    apply IH. apply fibonacci_cached_spec. assumption. }
  apply G. constructor.
Qed.

(** C9. Whatever calls were served before (starting from the empty cache of
    a freshly loaded module), [fibonacci_cached(n)] returns the value of
    [fibonacci_uncached(n)], for every integer [n] and so for every natural
    number. *)
Theorem fibonacci_cached_eq_uncached (calls : list Z) (n : Z) :
  fst (fibonacci_cached n (after_calls calls)) = fibonacci_uncached n.
Proof. apply fibonacci_cached_spec, after_calls_sound. Qed.

End CalculatorFacts.

Section KeyCodecFacts.
Import RedisCache.

(** Case analysis on the 256 code points of a character. *)
Ltac each_char c := destruct c as [[] [] [] [] [] [] [] []].

(** ** Strings as lists of characters *)

Lemma chars_app (a b : string) : chars (a ++ b) = chars a ++ chars b.
Proof. induction a as [|c a IH]; simpl; [reflexivity|]. now rewrite IH. Qed.

Lemma chars_inj (a b : string) : chars a = chars b -> a = b.
Proof.
  intros H. rewrite <- (string_of_list_ascii_of_string a),
    <- (string_of_list_ascii_of_string b). now rewrite H.
Qed.

(** Two ways of cutting a list after its last character outside a class. *)
Lemma cut_at_last_outside (C : ascii -> bool) (x1 x2 d1 d2 : list ascii)
    (c1 c2 : ascii) :
  x1 ++ c1 :: d1 = x2 ++ c2 :: d2 ->
  forallb C d1 = true -> forallb C d2 = true ->
  C c1 = false -> C c2 = false ->
  x1 = x2 /\ c1 = c2 /\ d1 = d2.
Proof.
  intros E H1 H2 N1 N2.
  assert (G : forall (y1 y2 e1 e2 : list ascii) (b1 b2 : ascii) (l : list ascii),
             y1 = y2 ++ l -> b2 :: e2 = l ++ b1 :: e1 ->
             forallb C e2 = true -> C b1 = false ->
             y1 = y2 /\ b1 = b2 /\ e1 = e2).
  { intros y1 y2 e1 e2 b1 b2 l Hy He Hc Hb. destruct l as [|a l].
    - simpl in He. injection He as -> ->. rewrite app_nil_r in Hy. auto.
    - simpl in He. injection He as -> ->.
      rewrite forallb_app in Hc. simpl in Hc. rewrite Hb in Hc.
      rewrite andb_false_r in Hc. discriminate. }
  apply app_eq_app in E as [l [[Hx Hd]|[Hx Hd]]].
  - eapply G; eauto.
  - destruct (G x2 x1 d2 d1 c2 c1 l) as (-> & -> & ->); auto.
Qed.

(** ** Escaped characters *)

Lemma unescape_escape_char (q c : ascii) (r : list ascii) :
  q = squote \/ q = dquote ->
  unescape_char (chars (escape_char q c) ++ r) = Some (c, r).
Proof.
  intros [->| ->];
    each_char c; reflexivity.
Qed.

Lemma escape_inj (q : ascii) (s1 s2 : string) :
  q = squote \/ q = dquote ->
  chars (escape q s1) = chars (escape q s2) -> s1 = s2.
Proof.
  intros Hq. revert s2.
  induction s1 as [|c1 s1 IH]; intros [|c2 s2] E; simpl in E.
  - reflexivity.
  - rewrite chars_app in E. apply (f_equal unescape_char) in E.
    rewrite unescape_escape_char in E by assumption. discriminate.
  - rewrite chars_app in E. apply (f_equal unescape_char) in E.
    rewrite unescape_escape_char in E by assumption. discriminate.
  - rewrite !chars_app in E. apply (f_equal unescape_char) in E.
    rewrite !unescape_escape_char in E by assumption.
    injection E as -> E. f_equal. auto.
Qed.

Lemma quotes_escaped_mono (p : bool) (l : list ascii) :
  quotes_escaped false l = true -> quotes_escaped p l = true.
Proof.
  destruct l as [|c l]; simpl; [reflexivity|].
  destruct (c =? squote)%char; simpl; [discriminate|auto].
Qed.

Lemma quotes_escaped_app (p : bool) (a b : list ascii) :
  quotes_escaped p a = true -> quotes_escaped false b = true ->
  quotes_escaped p (a ++ b) = true.
Proof.
  revert p. induction a as [|c a IH]; simpl; intros p Ha Hb.
  - now apply quotes_escaped_mono.
  - apply andb_prop in Ha as [H1 H2]. rewrite H1. simpl. auto.
Qed.

Lemma quotes_escaped_escape_char (c : ascii) :
  quotes_escaped false (chars (escape_char squote c)) = true.
Proof. each_char c; reflexivity. Qed.

Lemma quotes_escaped_escape (s : string) :
  quotes_escaped false (chars (escape squote s)) = true.
Proof.
  induction s as [|c s IH]; simpl; [reflexivity|].
  rewrite chars_app. apply quotes_escaped_app; [|exact IH].
  apply quotes_escaped_escape_char.
Qed.

Lemma quotes_escaped_before (p : bool) (u w : list ascii) (c : ascii) :
  quotes_escaped p (u ++ c :: squote :: w) = true -> c = backslash.
Proof.
  revert p. induction u as [|a u IH]; simpl; intros p H.
  - apply andb_prop in H as [_ H]. apply andb_prop in H as [H _].
    now apply Ascii.eqb_eq.
  - apply andb_prop in H as [_ H]. eauto.
Qed.

Lemma no_dquote_escape_char (c : ascii) :
  (c =? dquote)%char = false ->
  forallb (fun a => negb (a =? dquote)%char) (chars (escape_char dquote c))
  = true.
Proof.
  each_char c; intros H;
    first [reflexivity | discriminate H].
Qed.

Lemma no_dquote_escape (s : string) :
  contains dquote s = false ->
  forallb (fun a => negb (a =? dquote)%char) (chars (escape dquote s)) = true.
Proof.
  induction s as [|c s IH]; simpl; [reflexivity|]. intros H.
  apply orb_false_elim in H as [H1 H2].
  rewrite chars_app, forallb_app, IH by assumption.
  now rewrite no_dquote_escape_char.
Qed.

Lemma opener_facts (c : ascii) :
  opener c = true ->
  int_char c = false /\ c <> backslash /\ c <> squote /\ closer c = false
  /\ c <> ","%char.
Proof.
  each_char c; intros H;
    first [discriminate H | repeat split; discriminate].
Qed.

(** A single-quoted body is found again from the right: its opening quote is
    the last quote that follows an [opener]. *)
Lemma squote_cut (x y e1 e2 : list ascii) :
  x ++ squote :: e1 = y ++ squote :: e2 ->
  after_opener x -> after_opener y ->
  quotes_escaped false e1 = true -> quotes_escaped false e2 = true ->
  x = y /\ e1 = e2.
Proof.
  assert (G : forall (x y e1 e2 l : list ascii),
             x = y ++ l -> squote :: e2 = l ++ squote :: e1 ->
             after_opener x -> quotes_escaped false e2 = true ->
             x = y /\ e1 = e2).
  { intros x0 y0 f1 f2 l Hx He (x' & c & Hx' & Hc) Hq.
    apply opener_facts in Hc as (_ & Hb & Hs & _).
    destruct l as [|a l].
    - cbn [app] in He. injection He as ->. rewrite app_nil_r in Hx. auto.
    - cbn [app] in He. injection He as Ha He. subst a f2. exfalso.
      destruct (exists_last (l:=squote :: l)) as (l' & c' & Hl);
        [discriminate|].
      rewrite Hl, app_assoc in Hx. rewrite Hx in Hx'.
      apply app_inj_tail in Hx' as [_ Hcc]. subst c'.
      destruct l' as [|a' l'']; cbn [app] in Hl.
      + injection Hl as Hl _. auto.
      + injection Hl as _ Hl. subst l. rewrite <- app_assoc in Hq.
        cbn [app] in Hq. apply quotes_escaped_before in Hq. auto. }
  intros E Hx Hy H1 H2.
  apply app_eq_app in E as [l [[Hl Hd]|[Hl Hd]]].
  - eapply G; eauto.
  - destruct (G y x e2 e1 l) as [-> ->]; auto.
Qed.

(** ** The [repr] of one value, read from the right *)

Lemma quote_for_cases (s : string) :
  quote_for s = dquote /\ contains dquote s = false \/ quote_for s = squote.
Proof.
  unfold quote_for. destruct (contains squote s); simpl; [|now right].
  destruct (contains dquote s); simpl; [now right|now left].
Qed.

Lemma chars_str_repr (s : string) :
  chars (str_repr s)
  = quote_for s :: chars (escape (quote_for s) s) ++ [quote_for s].
Proof. unfold str_repr. simpl. now rewrite chars_app. Qed.

Lemma str_repr_tok (s1 s2 : string) (x y : list ascii) :
  after_opener x -> after_opener y ->
  x ++ chars (str_repr s1) = y ++ chars (str_repr s2) ->
  x = y /\ s1 = s2.
Proof.
  intros Hx Hy E. rewrite !chars_str_repr in E.
  change (?q :: ?l ++ [?q]) with ((q :: l) ++ [q]) in E.
  rewrite !app_assoc in E. apply app_inj_tail in E as [E Hq].
  rewrite <- Hq in E.
  destruct (quote_for_cases s1) as [[Q1 D1]|Q1]; rewrite Q1 in *.
  - (* double quotes: the body has none *)
    destruct (quote_for_cases s2) as [[_ D2]|Q2];
      [|rewrite Q2 in Hq; discriminate].
    apply (cut_at_last_outside (fun a => negb (a =? dquote)%char)) in E
      as (-> & _ & E); auto using no_dquote_escape.
    split; [reflexivity|]. apply (escape_inj dquote); auto.
  - (* single quotes: the body has escaped ones only *)
    apply squote_cut in E as [-> E]; auto using quotes_escaped_escape.
    split; [reflexivity|]. apply (escape_inj squote); auto.
Qed.

Lemma int_repr_chars (z : Z) : forallb int_char (chars (int_repr z)) = true.
Proof.
  assert (U : forall d, forallb int_char (chars (NilEmpty.string_of_uint d))
                        = true)
    by (induction d; simpl; auto).
  unfold int_repr. destruct (Z.to_int z); simpl; auto.
Qed.

Lemma int_repr_nonempty (z : Z) : chars (int_repr z) <> [].
Proof.
  assert (U : forall p, NilEmpty.string_of_uint (Pos.to_uint p) <> EmptyString).
  { intros p H. apply (DecimalPos.Unsigned.to_uint_nonnil p).
    destruct (Pos.to_uint p); [reflexivity|discriminate..]. }
  unfold int_repr. destruct z as [|p|p]; simpl; try discriminate.
  specialize (U p). destruct (NilEmpty.string_of_uint (Pos.to_uint p));
    [congruence|discriminate].
Qed.

Lemma int_repr_inj (z1 z2 : Z) :
  chars (int_repr z1) = chars (int_repr z2) -> z1 = z2.
Proof.
  intros H. apply chars_inj in H. unfold int_repr in H.
  apply (f_equal NilEmpty.int_of_string) in H. rewrite !NilEmpty.isi in H.
  injection H as H. now apply DecimalZ.to_int_inj.
Qed.

Lemma int_repr_tok (z1 z2 : Z) (x y : list ascii) :
  after_opener x -> after_opener y ->
  x ++ chars (int_repr z1) = y ++ chars (int_repr z2) ->
  x = y /\ z1 = z2.
Proof.
  intros (x' & c & -> & Hc) (y' & d & -> & Hd) E.
  rewrite <- !app_assoc in E. cbn [app] in E.
  apply opener_facts in Hc as (Hc & _). apply opener_facts in Hd as (Hd & _).
  apply (cut_at_last_outside int_char) in E as (-> & -> & E);
    auto using int_repr_chars.
  split; [reflexivity|]. now apply int_repr_inj.
Qed.

Lemma repr_last_class (v : pyval) :
  exists b c, chars (repr v) = b ++ [c] /\ last_class v c.
Proof.
  destruct v as [|[]|z|s].
  - exists (chars "Non"), "e"%char. split; reflexivity.
  - exists (chars "Tru"), "e"%char. split; reflexivity.
  - exists (chars "Fals"), "e"%char. split; reflexivity.
  - destruct (exists_last (int_repr_nonempty z)) as (b & c & Hb).
    exists b, c. split; [exact Hb|].
    pose proof (int_repr_chars z) as H. rewrite Hb in H.
    rewrite forallb_app in H. apply andb_prop in H as [_ H]. simpl in H.
    now apply andb_prop in H as [H _].
  - cbn [repr]. rewrite chars_str_repr.
    exists (quote_for s :: chars (escape (quote_for s) s)), (quote_for s).
    split; [reflexivity|].
    destruct (quote_for_cases s) as [[-> _]| ->]; [now right|now left].
Qed.

Lemma int_char_facts (c : ascii) :
  int_char c = true ->
  c <> "e"%char /\ c <> squote /\ c <> dquote.
Proof.
  each_char c; intros H;
    first [discriminate H | repeat split; discriminate].
Qed.

(** Every [repr] ends with a [closer]. *)
Lemma repr_last (v : pyval) :
  exists b c, chars (repr v) = b ++ [c] /\ closer c = true.
Proof.
  destruct (repr_last_class v) as (b & c & Hb & Hc). exists b, c.
  split; [exact Hb|]. unfold closer.
  destruct v; simpl in Hc;
    [subst c; reflexivity..| now rewrite Hc | destruct Hc; subst c; reflexivity].
Qed.

(** The token lemma: after an [opener], the [repr] of a value is found again
    from the right end of the text. *)
Lemma repr_tok (v1 v2 : pyval) (x y : list ascii) :
  after_opener x -> after_opener y ->
  x ++ chars (repr v1) = y ++ chars (repr v2) ->
  x = y /\ v1 = v2.
Proof.
  intros Hx Hy E.
  assert (R : forall a b : list ascii, rev a = rev b -> a = b).
  { intros a b H. rewrite <- (rev_involutive a), <- (rev_involutive b).
    now rewrite H. }
  assert (K : forall c, last_class v1 c -> last_class v2 c ->
              match v1, v2 with
              | PyInt _, PyInt _ | PyStr _, PyStr _ => True
              | (PyNone | PyBool _), (PyNone | PyBool _) => True
              | _, _ => False
              end).
  { intros c H1 H2.
    destruct v1 as [|[]|z1|s1], v2 as [|[]|z2|s2]; simpl in *; auto;
      try (subst c; discriminate);
      try (apply int_char_facts in H1; intuition congruence);
      try (apply int_char_facts in H2; intuition congruence);
      try (destruct H1; subst c; discriminate);
      try (destruct H2; subst c; discriminate). }
  assert (K' : match v1, v2 with
               | PyInt _, PyInt _ | PyStr _, PyStr _ => True
               | (PyNone | PyBool _), (PyNone | PyBool _) => True
               | _, _ => False
               end).
  { destruct (repr_last_class v1) as (b1 & c1 & Hb1 & Hc1).
    destruct (repr_last_class v2) as (b2 & c2 & Hb2 & Hc2).
    rewrite Hb1, Hb2, !app_assoc in E. apply app_inj_tail in E as [_ Hc].
    subst c2. exact (K c1 Hc1 Hc2). }
  clear K.
  destruct v1 as [|[]|z1|s1], v2 as [|[]|z2|s2]; try contradiction.
  all: try (apply int_repr_tok in E as [-> ->]; now auto).
  all: try (apply str_repr_tok in E as [-> ->]; now auto).
  all: apply (f_equal (@rev ascii)) in E; rewrite !rev_app_distr in E;
    cbn [chars repr rev app] in E.
  all: first [discriminate E | injection E as E; apply R in E; now subst].
Qed.

(** ** Joined lists of items *)

Section Joined.
Context {A : Type} (r : A -> string).
Hypothesis r_tok : forall (a b : A) (x y : list ascii),
  after_opener x -> after_opener y ->
  x ++ chars (r a) = y ++ chars (r b) -> x = y /\ a = b.
Hypothesis r_last : forall a : A,
  exists b c, chars (r a) = b ++ [c] /\ closer c = true.
Variable o : ascii.
Hypothesis o_bracket : o = "("%char \/ o = "{"%char.

Lemma join_with_snoc (l : list A) (a : A) :
  l <> [] ->
  join_with r (l ++ [a]) = (join_with r l ++ ", " ++ r a)%string.
Proof.
  induction l as [|b l IH]; [congruence|]. intros _.
  destruct l as [|b' l]; [reflexivity|].
  change (join_with r ((b :: b' :: l) ++ [a]))
    with (r b ++ ", " ++ join_with r ((b' :: l) ++ [a]))%string.
  rewrite IH by discriminate.
  change (join_with r (b :: b' :: l))
    with (r b ++ ", " ++ join_with r (b' :: l))%string.
  apply chars_inj. rewrite !chars_app, <- !app_assoc. reflexivity.
Qed.

Lemma before_snoc (x : list ascii) (l : list A) (a : A) :
  x ++ o :: chars (join_with r (l ++ [a])) = before r o x l ++ chars (r a).
Proof.
  destruct l as [|b l].
  - simpl. now rewrite <- app_assoc.
  - rewrite join_with_snoc by discriminate. unfold before.
    rewrite !chars_app, <- !app_assoc. cbn [app]. now rewrite <- !app_assoc.
Qed.

Lemma before_snoc_list (x : list ascii) (l : list A) (a : A) :
  before r o x (l ++ [a])
  = x ++ o :: chars (join_with r (l ++ [a])) ++ chars ", ".
Proof. destruct l; reflexivity. Qed.

Lemma before_after_opener (x : list ascii) (l : list A) :
  after_opener (before r o x l).
Proof.
  destruct l as [|b l]; unfold before.
  - exists x, o. split; [reflexivity|]. destruct o_bracket; subst o; reflexivity.
  - exists (x ++ o :: chars (join_with r (b :: l)) ++ [","%char]), " "%char.
    split; [|reflexivity]. rewrite <- !app_assoc. cbn [app].
    now rewrite <- !app_assoc.
Qed.

Lemma before_inj_nil (x y : list ascii) (l : list A) :
  before r o x [] = before r o y l -> x = y /\ l = [].
Proof.
  destruct l as [|b l]; unfold before.
  - intros H. apply app_inj_tail in H as [-> _]. auto.
  - intros H. exfalso.
    change (chars ", ") with ([","%char] ++ [" "%char]) in H.
    rewrite app_comm_cons, !app_assoc in H. apply app_inj_tail in H as [_ H].
    destruct o_bracket; subst o; discriminate.
Qed.

Lemma joined_inj_snoc (l1 : list A) :
  forall (l2 : list A) (a1 a2 : A) (x y : list ascii),
  x ++ o :: chars (join_with r (l1 ++ [a1]))
  = y ++ o :: chars (join_with r (l2 ++ [a2])) ->
  x = y /\ l1 = l2 /\ a1 = a2.
Proof.
  induction l1 as [|b1 l1 IH] using rev_ind; intros l2 a1 a2 x y E;
    rewrite !before_snoc in E;
    apply r_tok in E as [E ->]; auto using before_after_opener.
  - apply before_inj_nil in E as [-> ->]. auto.
  - destruct l2 as [|b2 l2 _] using rev_ind.
    + symmetry in E. apply before_inj_nil in E as [_ E].
      destruct l1; discriminate.
    + rewrite !before_snoc_list in E.
      rewrite !app_comm_cons, !app_assoc in E. apply app_inv_tail in E.
      apply IH in E as (-> & -> & ->). auto.
Qed.

Lemma joined_inj (l1 l2 : list A) (x y : list ascii) :
  l1 <> [] -> l2 <> [] ->
  x ++ o :: chars (join_with r l1) = y ++ o :: chars (join_with r l2) ->
  x = y /\ l1 = l2.
Proof.
  intros H1 H2 E.
  destruct (exists_last H1) as (m1 & a1 & ->).
  destruct (exists_last H2) as (m2 & a2 & ->).
  apply joined_inj_snoc in E as (-> & -> & ->). auto.
Qed.

Lemma joined_last (l : list A) :
  l <> [] ->
  exists b c, chars (join_with r l) = b ++ [c] /\ closer c = true.
Proof.
  intros H. destruct (exists_last H) as (m & a & ->).
  destruct (r_last a) as (b & c & Hb & Hc).
  destruct m as [|a' m].
  - exists b, c. auto.
  - rewrite join_with_snoc by discriminate. rewrite !chars_app, Hb.
    exists (chars (join_with r (a' :: m)) ++ chars ", " ++ b), c.
    split; [|exact Hc]. now rewrite <- !app_assoc.
Qed.

End Joined.

(** ** Tuples, dicts and the key *)

Lemma closer_facts (c : ascii) :
  closer c = true ->
  c <> "("%char /\ c <> "{"%char /\ c <> ","%char.
Proof.
  each_char c; intros H;
    first [discriminate H | repeat split; discriminate].
Qed.

Lemma item_tok (kv1 kv2 : string * pyval) (x y : list ascii) :
  after_opener x -> after_opener y ->
  x ++ chars (item_repr kv1) = y ++ chars (item_repr kv2) ->
  x = y /\ kv1 = kv2.
Proof.
  destruct kv1 as [k1 v1], kv2 as [k2 v2]. unfold item_repr. cbn [fst snd].
  intros Hx Hy E. rewrite !chars_app in E.
  change (chars ": ") with ([":"%char] ++ [" "%char]) in E.
  rewrite !app_assoc in E.
  apply repr_tok in E as [E ->].
  - apply app_inj_tail in E as [E _]. apply app_inj_tail in E as [E _].
    apply str_repr_tok in E as [-> ->]; auto.
  - eexists _, " "%char. split; [reflexivity|reflexivity].
  - eexists _, " "%char. split; [reflexivity|reflexivity].
Qed.

Lemma item_last (kv : string * pyval) :
  exists b c, chars (item_repr kv) = b ++ [c] /\ closer c = true.
Proof.
  destruct (repr_last (snd kv)) as (b & c & Hb & Hc).
  exists (chars (str_repr (fst kv)) ++ chars ": " ++ b), c.
  split; [|exact Hc]. unfold item_repr.
  now rewrite !chars_app, Hb, <- !app_assoc.
Qed.

(** A bracket alone against a bracket followed by items. *)
Lemma bracket_alone (o : ascii) {A : Type} (r : A -> string)
    (l : list A) (x y : list ascii) :
  (forall a : A, exists b c, chars (r a) = b ++ [c] /\ closer c = true) ->
  o = "("%char \/ o = "{"%char ->
  l <> [] ->
  x ++ [o] = y ++ o :: chars (join_with r l) -> False.
Proof.
  intros Hr Ho Hl E.
  destruct (joined_last r Hr l Hl) as (b & c & Hb & Hc).
  rewrite Hb, app_comm_cons, app_assoc in E.
  apply app_inj_tail in E as [_ E]. apply closer_facts in Hc.
  destruct Ho; subst; intuition congruence.
Qed.

Lemma chars_tuple_repr (a : list pyval) :
  chars (tuple_repr a)
  = ("("%char :: chars (join_with repr a))
    ++ (match a with [_] => [","%char] | _ => [] end) ++ [")"%char].
Proof.
  destruct a as [|v [|w l]]; [reflexivity| |].
  - unfold tuple_repr. rewrite !chars_app. reflexivity.
  - unfold tuple_repr. rewrite !chars_app. reflexivity.
Qed.

Lemma tuple_repr_inj (a1 a2 : list pyval) (x y : list ascii) :
  x ++ chars (tuple_repr a1) = y ++ chars (tuple_repr a2) ->
  x = y /\ a1 = a2.
Proof.
  intros E. rewrite !chars_tuple_repr, !app_assoc in E.
  apply app_inj_tail in E as [E _].
  assert (J : forall b1 b2 : list pyval, b1 <> [] -> b2 <> [] ->
            x ++ "("%char :: chars (join_with repr b1)
            = y ++ "("%char :: chars (join_with repr b2) ->
            x = y /\ b1 = b2).
  { intros b1 b2. apply (joined_inj repr repr_tok "("%char); auto. }
  assert (L : forall (b : list pyval) (z1 z2 : list ascii) (c : ascii),
            b <> [] -> c = "("%char \/ c = ","%char ->
            z1 ++ [c] = z2 ++ "("%char :: chars (join_with repr b) -> False).
  { intros b z1 z2 c Hb Hc F.
    destruct (joined_last repr repr_last b Hb) as (u & d & Hu & Hd).
    rewrite Hu, app_comm_cons, app_assoc in F.
    apply app_inj_tail in F as [_ F]. apply closer_facts in Hd.
    destruct Hc; subst; intuition congruence. }
  destruct a1 as [|v1 [|w1 l1]], a2 as [|v2 [|w2 l2]];
    rewrite ?app_nil_r in E;
    change (chars (join_with repr [])) with (@nil ascii) in E.
  - apply app_inj_tail in E as [-> _]. auto.
  - apply app_inj_tail in E as [_ E]. discriminate.
  - exfalso. eapply L; [| |exact E]; [discriminate|auto].
  - apply app_inj_tail in E as [_ E]. discriminate.
  - apply app_inj_tail in E as [E _].
    apply J in E; [assumption|discriminate..].
  - exfalso. eapply L; [| |exact E]; [discriminate|auto].
  - exfalso. symmetry in E. eapply L; [| |exact E]; [discriminate|auto].
  - exfalso. symmetry in E. eapply L; [| |exact E]; [discriminate|auto].
  - apply J in E; [assumption|discriminate..].
Qed.

Lemma chars_dict_repr (k : list (string * pyval)) :
  chars (dict_repr k)
  = ("{"%char :: chars (join_with item_repr k)) ++ ["}"%char].
Proof. unfold dict_repr. rewrite !chars_app. reflexivity. Qed.

Lemma dict_repr_inj (k1 k2 : list (string * pyval)) (x y : list ascii) :
  x ++ chars (dict_repr k1) = y ++ chars (dict_repr k2) ->
  x = y /\ k1 = k2.
Proof.
  intros E. rewrite !chars_dict_repr, !app_assoc in E.
  apply app_inj_tail in E as [E _].
  destruct k1 as [|kv1 k1], k2 as [|kv2 k2];
    change (chars (join_with item_repr [])) with (@nil ascii) in E.
  - apply app_inj_tail in E as [-> _]. auto.
  - exfalso. eapply (bracket_alone "{"%char item_repr); [| | |exact E];
      [exact item_last|auto|discriminate].
  - exfalso. symmetry in E.
    eapply (bracket_alone "{"%char item_repr); [| | |exact E];
      [exact item_last|auto|discriminate].
  - apply (joined_inj item_repr item_tok "{"%char) in E;
      [assumption|auto|discriminate..].
Qed.

(** The key determines the logical name, the positional arguments and the
    keyword arguments in the order they were written. *)
Lemma cache_key_inj (p1 p2 : string) (a1 a2 : list pyval)
    (k1 k2 : list (string * pyval)) :
  cache_key p1 a1 k1 = cache_key p2 a2 k2 ->
  p1 = p2 /\ a1 = a2 /\ k1 = k2.
Proof.
  intros E. apply (f_equal chars) in E. unfold cache_key in E.
  rewrite !chars_app in E. rewrite !app_assoc in E.
  apply dict_repr_inj in E as [E ->].
  apply app_inj_tail in E as [E _].
  apply tuple_repr_inj in E as [E ->].
  apply app_inj_tail in E as [E _]. apply chars_inj in E. auto.
Qed.

(** C4. The key encoding is injective: two calls that differ in the logical
    name, in the ordered positional arguments or in the keyword arguments get
    different cache keys. *)
Theorem cache_key_injective (p1 p2 : string) (a1 a2 : list pyval)
    (k1 k2 : list (string * pyval)) :
  p1 <> p2 \/ a1 <> a2 \/ k1 <> k2 ->
  cache_key p1 a1 k1 <> cache_key p2 a2 k2.
Proof. intros H E. apply cache_key_inj in E as (? & ? & ?). tauto. Qed.

Lemma cache_key_injective_witness :
  ("products:(1," <> "products"
   \/ [PyInt 10] <> [PyInt 1; PyInt 10]
   \/ @nil (string * pyval) <> [])
  /\ cache_key "products:(1," [PyInt 10] []
     <> cache_key "products" [PyInt 1; PyInt 10] [].
Proof.
  split; [left; discriminate|].
  apply (cache_key_injective "products:(1," "products").
  left; discriminate.
Defined.

(** C8, as the code has it. The same logical name, positional arguments and
    keyword arguments written in the same order always give the same key, and
    two keyword dicts give the same key only when they were written in the
    same order. *)
Theorem cache_key_stable_iff_same_order (key_prefix : string)
    (args : list pyval) (k1 k2 : list (string * pyval)) :
  cache_key key_prefix args k1 = cache_key key_prefix args k2 <-> k1 = k2.
Proof.
  split; [|now intros ->].
  intros E. now apply cache_key_inj in E as (_ & _ & ?).
Qed.

(** C8, as stated, fails: [get_products_redis(page=1, per_page=10)] and
    [get_products_redis(per_page=10, page=1)] pass equal keyword dicts and
    get different keys. *)
Lemma cache_key_depends_on_keyword_order :
  same_kwargs [("page", PyInt 1); ("per_page", PyInt 10)]
              [("per_page", PyInt 10); ("page", PyInt 1)]
  /\ cache_key "products_list" [] [("page", PyInt 1); ("per_page", PyInt 10)]
     <> cache_key "products_list" []
          [("per_page", PyInt 10); ("page", PyInt 1)].
Proof.
  split.
  - split; [|split].
    + simpl. repeat first [apply NoDup_nil_2 | apply NoDup_cons_2];
        rewrite ?elem_of_cons, ?elem_of_nil; intuition discriminate.
    + simpl. repeat first [apply NoDup_nil_2 | apply NoDup_cons_2];
        rewrite ?elem_of_cons, ?elem_of_nil; intuition discriminate.
    + intros kv; simpl; tauto.
  - intros H. vm_compute in H. discriminate H.
Qed.

End KeyCodecFacts.

Section ProductsFacts.
Import World Products.

Lemma product_key_inj (a b : Z) : product_key a = product_key b -> a = b.
Proof.
  unfold product_key. intros H. apply (f_equal RedisCache.chars) in H.
  rewrite !chars_app in H. apply app_inv_head in H.
  now apply int_repr_inj.
Qed.

Lemma product_key_not_page_key (a page per_page : Z) :
  product_key a <> products_page_key page per_page.
Proof. unfold product_key, products_page_key. simpl. discriminate. Qed.

Lemma fresh_entry_off (k : string) (ttl : Z) (w : world) :
  fresh_entry false k ttl w = None.
Proof. reflexivity. Qed.

Lemma fresh_entry_expired (k : string) (ttl : Z) (w : world) (e : cache_entry) :
  _cache w !! k = Some e -> ttl <= clock w - ce_timestamp e ->
  fresh_entry true k ttl w = None.
Proof.
  intros He Ht. unfold fresh_entry. rewrite He.
  destruct (Z.ltb_spec (clock w - ce_timestamp e) ttl); [lia|reflexivity].
Qed.

Lemma fresh_entry_young (k : string) (ttl : Z) (w : world) (e : cache_entry) :
  _cache w !! k = Some e -> clock w - ce_timestamp e < ttl ->
  fresh_entry true k ttl w = Some (ce_data e).
Proof.
  intros He Ht. unfold fresh_entry. rewrite He.
  destruct (Z.ltb_spec (clock w - ce_timestamp e) ttl); [reflexivity|lia].
Qed.

Lemma fresh_entry_absent (k : string) (ttl : Z) (w : world) (b : bool) :
  _cache w !! k = None -> fresh_entry b k ttl w = None.
Proof. intros He. unfold fresh_entry. rewrite He. now destruct b. Qed.

(** C7. The time-to-live of the in-process store is the 30 seconds of
    line 16: [get_products] compares the entry's timestamp with the clock on
    every read. A younger entry is returned as it is;
    an entry of 30 seconds or more is treated as absent: the result is the
    one computed from the table, the same as without that entry. *)
Theorem get_products_ttl (page per_page : Z) (w : world) (e : cache_entry) :
  _cache w !! products_page_key page per_page = Some e ->
  (clock w - ce_timestamp e < 30000 ->
   get_products page per_page true w = (inl (ce_data e), w))
  /\ (30000 <= clock w - ce_timestamp e ->
      fst (get_products page per_page true w)
      = fst (get_products page per_page false w)
      /\ fst (get_products page per_page true w)
         = fst (get_products page per_page true
                  (set_cache (delete (products_page_key page per_page)
                                (_cache w)) w))
      /\ (per_page <> 0 ->
          snd (get_products page per_page true w)
          = snd (get_products page per_page true
                   (set_cache (delete (products_page_key page per_page)
                                 (_cache w)) w)))).
Proof.
  intros He. split; intros Ht.
  - unfold get_products. now rewrite (fresh_entry_young _ _ _ _ He Ht).
  - unfold get_products.
    rewrite (fresh_entry_expired _ _ _ _ He Ht), fresh_entry_off.
    rewrite fresh_entry_absent by (simpl; apply lookup_delete_eq).
    cbn [clock table set_cache _cache].
    destruct (Z.eqb_spec per_page 0) as [->|Hp].
    + repeat split; try reflexivity. congruence.
    + repeat split; try reflexivity. intros _. cbn [snd].
      unfold set_cache. cbn [clock table _cache redis producer_calls].
      now rewrite insert_delete_eq.
Qed.

(** X22. The same for [get_product_by_id], against one minute: a younger
    entry is returned as it is, an entry of one minute or more is treated as
    absent. *)
Lemma get_product_by_id_ttl (product_id : Z) (w : world) (e : cache_entry) :
  _cache w !! product_key product_id = Some e ->
  (clock w - ce_timestamp e < 60000 ->
   get_product_by_id product_id true w = (Some (ce_data e), w))
  /\ (60000 <= clock w - ce_timestamp e ->
      fst (get_product_by_id product_id true w)
      = fst (get_product_by_id product_id false w)).
Proof.
  intros He. split; intros Ht; unfold get_product_by_id.
  - now rewrite (fresh_entry_young _ _ _ _ He Ht).
  - rewrite (fresh_entry_expired _ _ _ _ He Ht), fresh_entry_off.
    cbn [sleep set_clock table].
    destruct (select_by_id product_id (table w)); reflexivity.
Qed.

Lemma get_products_ttl_witness :
  let w := sleep 30000
             (snd (get_products 1 10 true (start 0 [sample_row 1] ∅))) in
  let e := {| ce_data := Page [(1, "Product 1"%string, 1099)] 1 10 1 1 0;
              ce_timestamp := 0 |} in
  _cache w !! products_page_key 1 10 = Some e
  /\ 30000 <= clock w - ce_timestamp e
  /\ fst (get_products 1 10 true w) = fst (get_products 1 10 false w).
Proof.
  intros w e.
  assert (He : _cache w !! products_page_key 1 10 = Some e) by reflexivity.
  assert (Ht : 30000 <= clock w - ce_timestamp e) by (vm_compute; discriminate).
  split; [exact He|]. split; [exact Ht|].
  exact (proj1 (proj2 (get_products_ttl 1 10 w e He) Ht)).
Defined.

(** ** Absent rows *)

Lemma select_by_id_map (f : row -> row) (product_id : Z) (t : list row) :
  (forall r, id (f r) = id r) ->
  select_by_id product_id (map f t) = f <$> select_by_id product_id t.
Proof.
  intros Hf. unfold select_by_id. induction t as [|r t IH]; [reflexivity|].
  cbn [map find]. rewrite Hf. destruct (id r =? product_id); [reflexivity|].
  exact IH.
Qed.

Lemma select_by_id_app (product_id : Z) (t : list row) (r : row) :
  is_Some (select_by_id product_id t) ->
  is_Some (select_by_id product_id (t ++ [r])).
Proof.
  unfold select_by_id. induction t as [|r' t IH]; cbn [app find].
  - intros [? H]. discriminate H.
  - destruct (id r' =? product_id); auto.
Qed.

Lemma cache_backed_run_op (o : op) (w : world) :
  cache_backed w -> cache_backed (run_op o w).
Proof.
  intros Hw pid e. destruct o as [page per_page uc|pid' uc|pid' n p d|r|ms];
    cbn [run_op].
  - (* get_products writes under a page key only *)
    unfold get_products.
    destruct (fresh_entry uc _ 30000 w); [apply Hw|].
    destruct (per_page =? 0); [apply Hw|]. destruct uc; [|apply Hw].
    cbn [snd set_cache _cache table].
    rewrite lookup_insert_ne by (symmetry; apply product_key_not_page_key).
    apply Hw.
  - (* get_product_by_id writes only for a row it found *)
    unfold get_product_by_id.
    destruct (fresh_entry uc _ 60000 w); [apply Hw|].
    cbn [sleep set_clock table].
    destruct (select_by_id pid' (table w)) as [r|] eqn:Hr; [|apply Hw].
    destruct uc; [|apply Hw].
    cbn [snd set_cache _cache table clock].
    destruct (decide (product_key pid' = product_key pid)) as [Hk|Hk].
    + apply product_key_inj in Hk. subst pid'. intros _.
      change (table (sleep 500 w)) with (table w). rewrite Hr. eauto.
    + rewrite lookup_insert_ne by exact Hk. apply Hw.
  - (* update_product keeps ids and leaves _cache alone *)
    unfold update_product.
    assert (G : forall t' : list row,
              (is_Some (select_by_id pid (table w)) ->
               is_Some (select_by_id pid t')) ->
              _cache w !! product_key pid = Some e ->
              is_Some (select_by_id pid t')) by (intros t' Ht He; eauto).
    destruct n, p, d; cbn [snd]; try apply Hw;
      cbn [Redis.del_prefix Redis.del set_redis set_table table _cache];
      apply G; rewrite select_by_id_map by (intros r; now destruct (id r =? pid'));
      intros [r ->]; eauto.
  - cbn [set_table table _cache]. intros He. apply select_by_id_app. eauto.
  - apply Hw.
Qed.

Lemma cache_backed_run_ops (ops : list op) (w : world) :
  cache_backed w -> cache_backed (run_ops ops w).
Proof.
  revert w. induction ops as [|o ops IH]; intros w Hw; [exact Hw|].
  apply IH, cache_backed_run_op, Hw.
Qed.

Lemma cache_backed_start (now : Z) (rows : list row)
    (r : gmap string redis_entry) :
  cache_backed (start now rows r).
Proof. intros pid e H. cbn in H. rewrite lookup_empty in H. discriminate. Qed.

(** The reader looks at the table only when it has no young entry. *)
Lemma fresh_entry_stale (use_cache : bool) (k : string) (ttl : Z) (w : world) :
  (use_cache = false
   \/ forall e : cache_entry,
        _cache w !! k = Some e -> ttl <= clock w - ce_timestamp e) ->
  fresh_entry use_cache k ttl w = None.
Proof.
  intros [->|Hold]; [reflexivity|]. unfold fresh_entry.
  destruct use_cache; [|reflexivity].
  destruct (_cache w !! k) as [e|] eqn:He; [|reflexivity].
  specialize (Hold e eq_refl).
  destruct (Z.ltb_spec (clock w - ce_timestamp e) ttl); [lia|reflexivity].
Qed.

Lemma get_product_by_id_no_row (product_id : Z) (use_cache : bool)
    (w : world) :
  select_by_id product_id (table w) = None ->
  fresh_entry use_cache (product_key product_id) 60000 w = None ->
  get_product_by_id product_id use_cache w = (None, sleep 500 w).
Proof.
  intros Hrow Hf. unfold get_product_by_id. rewrite Hf.
  cbn [sleep set_clock table]. now rewrite Hrow.
Qed.

(** C10, as the code has it. The cache is asked first (lines 70 to 75) and
    the table only after it: a [product_id] without a row makes
    [get_product_by_id] return [None] and leave [_cache] as it was, whatever
    [use_cache] is, when the cache is off or holds no entry younger than one
    minute under the id. The only change is the half second slept: the
    absence is not cached. *)
Theorem get_product_by_id_absent_row (product_id : Z) (use_cache : bool)
    (w : world) :
  select_by_id product_id (table w) = None ->
  (use_cache = false
   \/ forall e : cache_entry,
        _cache w !! product_key product_id = Some e ->
        60000 <= clock w - ce_timestamp e) ->
  get_product_by_id product_id use_cache w = (None, sleep 500 w)
  /\ _cache (snd (get_product_by_id product_id use_cache w)) = _cache w.
Proof.
  intros Hrow Hold.
  rewrite (get_product_by_id_no_row product_id use_cache w Hrow)
    by (apply fresh_entry_stale; exact Hold).
  split; reflexivity.
Qed.

(** The entry of a row that has gone, once it is a minute old: the reader
    returns [None] and leaves the old entry where it is. *)
Lemma get_product_by_id_absent_row_witness :
  let w := sleep 60000
             (set_table []
                (snd (get_product_by_id 1 true (start 0 [sample_row 1] ∅)))) in
  let e := {| ce_data := Product (sample_row 1) 500; ce_timestamp := 500 |} in
  select_by_id 1 (table w) = None
  /\ _cache w !! product_key 1 = Some e
  /\ 60000 <= clock w - ce_timestamp e
  /\ get_product_by_id 1 true w = (None, sleep 500 w)
  /\ _cache (snd (get_product_by_id 1 true w)) = _cache w.
Proof.
  intros w e.
  assert (He : _cache w !! product_key 1 = Some e) by reflexivity.
  assert (Ht : 60000 <= clock w - ce_timestamp e) by (vm_compute; discriminate).
  split; [reflexivity|]. split; [exact He|]. split; [exact Ht|].
  apply (get_product_by_id_absent_row 1 true w); [reflexivity|].
  right. intros e' He'. rewrite He in He'. injection He' as <-. exact Ht.
Defined.

(** C10, as stated, fails: the row of product 1 is read and cached, then
    removed from the table; one second later the id has no row and
    [get_product_by_id(1)] returns the cached product, not [None]. *)
Lemma cached_product_outlives_its_row :
  let w := sleep 1000
             (set_table []
                (snd (get_product_by_id 1 true (start 0 [sample_row 1] ∅)))) in
  select_by_id 1 (table w) = None
  /\ get_product_by_id 1 true w = (Some (Product (sample_row 1) 500), w)
  /\ fst (get_product_by_id 1 true w) <> None.
Proof.
  intros w. split; [reflexivity|]. split; [reflexivity|]. discriminate.
Qed.

(** Nothing in the repository removes a row: in every state the process
    reaches by its own calls, added rows and the passing of time, every
    cached product has its row, and a [product_id] without a row gets [None]
    whatever the cache holds. *)
Lemma absent_row_in_reachable_state (now : Z) (rows : list row)
    (r : gmap string redis_entry) (ops : list op)
    (product_id : Z) (use_cache : bool) :
  let w := run_ops ops (start now rows r) in
  select_by_id product_id (table w) = None ->
  get_product_by_id product_id use_cache w = (None, sleep 500 w)
  /\ _cache (snd (get_product_by_id product_id use_cache w)) = _cache w.
Proof.
  intros w Hrow.
  assert (Hw : cache_backed w)
    by apply cache_backed_run_ops, cache_backed_start.
  assert (Hf : fresh_entry use_cache (product_key product_id) 60000 w = None).
  { unfold fresh_entry. destruct use_cache; [|reflexivity].
    destruct (_cache w !! product_key product_id) as [e|] eqn:He;
      [|reflexivity].
    apply Hw in He as [x Hx]. congruence. }
  rewrite (get_product_by_id_no_row product_id use_cache w Hrow Hf).
  split; reflexivity.
Qed.

(** ** Invalidation *)

Lemma update_product_keeps_cache (product_id : Z) (n : option string)
    (p : option Z) (d : option string) (w : world) :
  _cache (snd (update_product product_id n p d w)) = _cache w
  /\ clock (snd (update_product product_id n p d w)) = clock w.
Proof. unfold update_product. destruct n, p, d; split; reflexivity. Qed.

(** What the invalidation does reach: the Redis keys. *)
Lemma update_product_clears_redis (product_id : Z) (n : option string)
    (p : option Z) (d : option string) (w : world) :
  fst (update_product product_id n p d w) = true ->
  let w' := snd (update_product product_id n p d w) in
  Redis.get w' (product_key product_id) = None
  /\ forall k : string,
       String.prefix "products_list:" k = true -> Redis.get w' k = None.
Proof.
  intros Hok w'.
  assert (Hw' : w' = Redis.del_prefix "products_list:"
                       (Redis.del (product_key product_id)
                          (set_table (table w') w))).
  { subst w'. unfold update_product in *.
    destruct n, p, d; try reflexivity. discriminate Hok. }
  rewrite Hw'. unfold Redis.get, Redis.lookup, Redis.del_prefix, Redis.del.
  cbn [redis set_redis set_table clock]. split.
  - rewrite map_lookup_filter, lookup_delete_eq. reflexivity.
  - intros k Hk. rewrite map_lookup_filter.
    destruct (delete (product_key product_id) (redis w) !! k) as [e|];
      [|reflexivity].
    cbn. case_guard as Hg; cbn.
    + cbn [fst snd] in Hg. rewrite Hk in Hg. cbn in Hg. now rewrite Hg.
    + reflexivity.
Qed.

(** The reader's own cache is not reached: a young entry is still served. *)
Lemma read_after_update_hits (product_id : Z) (n : option string)
    (p : option Z) (d : option string) (w : world) (e : cache_entry) :
  _cache w !! product_key product_id = Some e ->
  clock w - ce_timestamp e < 60000 ->
  let w' := snd (update_product product_id n p d w) in
  get_product_by_id product_id true w' = (Some (ce_data e), w').
Proof.
  intros He Ht w'.
  destruct (update_product_keeps_cache product_id n p d w) as [Hc Hk].
  unfold get_product_by_id. rewrite (fresh_entry_young _ _ _ e); [reflexivity| |].
  - subst w'. now rewrite Hc.
  - subst w'. now rewrite Hk.
Qed.

(** C5 fails on the code. Product 1 is read (and cached in [_cache]), then
    renamed by [update_product], which returns [True] and clears the Redis
    keys; the next [get_product_by_id(1, use_cache=True)] is a hit on the old
    entry: the old name comes back and the table is not queried. *)
Theorem read_after_update_is_stale :
  let w0 := start 0 [sample_row 1] ∅ in
  let w1 := snd (get_product_by_id 1 true w0) in
  let w2 := snd (update_product 1 (Some "Lamp"%string) None None w1) in
  fst (update_product 1 (Some "Lamp"%string) None None w1) = true
  /\ name <$> select_by_id 1 (table w2) = Some "Lamp"%string
  /\ get_product_by_id 1 true w2 = (Some (Product (sample_row 1) 500), w2)
  /\ fst (get_product_by_id 1 false w2)
     = Some (Product (update_row (Some "Lamp"%string) None None (sample_row 1))
               500).
Proof. repeat split. Qed.

End ProductsFacts.

Section StampedeFacts.
Import World Stampede.
Context {V : Type} (dumps : V -> option string) (loads : string -> option V).

Abbreviation gwsp := (get_with_stampede_protection dumps loads).

Lemma lock_key_of_neq (key : string) : lock_key_of key <> key.
Proof.
  unfold lock_key_of. intros H. apply (f_equal RedisCache.chars) in H.
  rewrite chars_app in H. apply (f_equal (@length ascii)) in H.
  rewrite length_app in H. simpl in H. lia.
Qed.

Lemma live_later (t t' : Z) (e : redis_entry) :
  t <= t' -> Redis.live t e = false -> Redis.live t' e = false.
Proof.
  unfold Redis.live. destruct (deadline e) as [d|]; [|discriminate].
  intros Ht H. apply Z.ltb_ge in H. apply Z.ltb_ge. lia.
Qed.

Lemma get_none_later (w w' : world) (key : string) :
  redis w' !! key = redis w !! key -> clock w <= clock w' ->
  Redis.get w key = None -> Redis.get w' key = None.
Proof.
  unfold Redis.get, Redis.lookup. intros -> Ht.
  destruct (redis w !! key) as [e|]; [|reflexivity].
  destruct (Redis.live (clock w) e) eqn:Hl; [discriminate|]. intros _.
  now rewrite (live_later _ _ _ Ht Hl).
Qed.

Lemma redis_expire_other (key k : string) (seconds : Z) (w : world) :
  k <> key -> redis (Redis.expire key seconds w) !! k = redis w !! k.
Proof.
  intros Hk. unfold Redis.expire. destruct (Redis.lookup w key); [|reflexivity].
  destruct (seconds <=? 0); cbn [redis set_redis].
  - now rewrite lookup_delete_ne.
  - now rewrite lookup_insert_ne.
Qed.

Lemma clock_expire (key : string) (seconds : Z) (w : world) :
  clock (Redis.expire key seconds w) = clock w.
Proof.
  unfold Redis.expire. destruct (Redis.lookup w key); [|reflexivity].
  now destruct (seconds <=? 0).
Qed.

Lemma producer_calls_expire (key : string) (seconds : Z) (w : world) :
  producer_calls (Redis.expire key seconds w) = producer_calls w.
Proof.
  unfold Redis.expire. destruct (Redis.lookup w key); [|reflexivity].
  now destruct (seconds <=? 0).
Qed.

(** C3. A caller that finds no value, gets the lock and whose producer
    raises: the exception reaches the caller, the producer ran once, and the
    store holds neither a value under the key nor the lock. *)
Theorem producer_failure_leaves_no_entry (depth : nat) (key : string)
    (ttl : Z) (fallback_function : producer (V:=V)) (lock_timeout : Z)
    (w : world) (elapsed : N) (msg : string) :
  Redis.get w key = None ->
  Redis.lookup w (lock_key_of key) = None ->
  fallback_function (clock w) = (elapsed, inr msg) ->
  let r := gwsp (S depth) key ttl fallback_function lock_timeout w in
  fst r = Raised (ProducerError msg)
  /\ Redis.get (snd r) key = None
  /\ redis (snd r) !! key = redis w !! key
  /\ redis (snd r) !! lock_key_of key = None
  /\ producer_calls (snd r) = S (producer_calls w).
Proof.
  intros Hget Hlock Hf r. subst r. cbn [get_with_stampede_protection].
  rewrite Hget. unfold Redis.setnx. rewrite Hlock.
  unfold produce_and_store. rewrite clock_expire. cbn [set_redis clock].
  rewrite Hf. cbn [fst snd].
  pose proof (lock_key_of_neq key) as Hne.
  assert (Hkey : redis (Redis.del (lock_key_of key)
                   (sleep (Z.of_N elapsed) (count_call
                      (Redis.expire (lock_key_of key) lock_timeout
                         (set_redis (<[lock_key_of key :=
                                        {| value := "locked"; deadline := None |}]>
                                       (redis w)) w))))) !! key
                 = redis w !! key).
  { cbn [Redis.del redis set_redis sleep set_clock count_call].
    rewrite lookup_delete_ne by exact Hne.
    rewrite redis_expire_other by congruence. cbn [redis set_redis].
    now rewrite lookup_insert_ne. }
  split; [reflexivity|]. split; [|split; [exact Hkey|split]].
  - eapply get_none_later; [exact Hkey| |exact Hget].
    cbn [Redis.del clock set_redis sleep set_clock count_call].
    rewrite clock_expire. cbn [clock set_redis]. lia.
  - cbn [Redis.del redis set_redis]. apply lookup_delete_eq.
  - cbn [Redis.del producer_calls set_redis sleep set_clock count_call].
    now rewrite producer_calls_expire.
Qed.

(** X21. The [finally] of line 159: whatever the producer, [json.dumps] or
    [SETEX] do, a caller that took the lock leaves none behind. *)
Lemma lock_released_on_every_exit (depth : nat) (key : string) (ttl : Z)
    (fallback_function : producer (V:=V)) (lock_timeout : Z) (w : world) :
  Redis.get w key = None ->
  Redis.lookup w (lock_key_of key) = None ->
  redis (snd (gwsp (S depth) key ttl fallback_function lock_timeout w))
    !! lock_key_of key = None.
Proof.
  intros Hget Hlock. cbn [get_with_stampede_protection].
  rewrite Hget. unfold Redis.setnx. rewrite Hlock.
  destruct (produce_and_store _ _ _ _ _) as [r w3].
  cbn [snd Redis.del redis set_redis]. apply lookup_delete_eq.
Qed.

(** ** Waiting for the lock *)

Lemma sleep_sleep (a b : Z) (w : world) :
  sleep a (sleep b w) = sleep (b + a) w.
Proof. unfold sleep, set_clock. cbn. f_equal. lia. Qed.

Lemma sleep_zero (w : world) : sleep 0 w = w.
Proof. destruct w. unfold sleep, set_clock. cbn. f_equal. lia. Qed.

(** A pass that finds no value and the lock held sleeps and calls again. *)
Lemma waiting_pass (depth : nat) (key : string) (ttl : Z)
    (fallback_function : producer (V:=V)) (lock_timeout : Z)
    (w : world) (e : redis_entry) :
  redis w !! key = None ->
  redis w !! lock_key_of key = Some e ->
  Redis.live (clock w) e = true ->
  gwsp (S depth) key ttl fallback_function lock_timeout w
  = gwsp depth key ttl fallback_function lock_timeout (sleep 100 w).
Proof.
  intros Hkey Hlock Hlive. cbn [get_with_stampede_protection].
  unfold Redis.get, Redis.setnx, Redis.lookup.
  rewrite Hkey, Hlock, Hlive. reflexivity.
Qed.

Lemma waiting_passes (depth : nat) (key : string) (ttl : Z)
    (fallback_function : producer (V:=V)) (lock_timeout : Z)
    (w : world) (e : redis_entry) :
  redis w !! key = None ->
  redis w !! lock_key_of key = Some e ->
  (forall k : nat, (k < depth)%nat ->
     Redis.live (clock w + 100 * Z.of_nat k) e = true) ->
  gwsp depth key ttl fallback_function lock_timeout w
  = (Raised RecursionError, sleep (100 * Z.of_nat depth) w).
Proof.
  revert w. induction depth as [|depth IH]; intros w Hkey Hlock Hlive.
  - cbn. now rewrite sleep_zero.
  - rewrite (waiting_pass depth key ttl fallback_function lock_timeout w e);
      [|exact Hkey|exact Hlock|].
    + rewrite IH.
      * rewrite sleep_sleep. do 2 f_equal. lia.
      * exact Hkey.
      * exact Hlock.
      * intros k Hk. specialize (Hlive (S k) ltac:(lia)).
        cbn [sleep set_clock clock].
        replace (clock w + 100 + 100 * Z.of_nat k)
          with (clock w + 100 * Z.of_nat (S k)) by lia.
        exact Hlive.
    + specialize (Hlive 0%nat ltac:(lia)).
      now replace (clock w + 100 * Z.of_nat 0) with (clock w) in Hlive by lia.
Qed.

(** C2, as the code has it. The wait has no bound of its own. While the lock
    key stays and no value is published, every pass sleeps a tenth of a
    second and calls the function again, for as many calls as the interpreter
    still allows; what ends the call then is the interpreter's
    [RecursionError], not a timeout error, and the producer has not run. *)
Theorem waiting_has_no_bound_of_its_own (depth : nat) (key : string) (ttl : Z)
    (fallback_function : producer (V:=V)) (lock_timeout : Z)
    (w : world) (e : redis_entry) :
  redis w !! key = None ->
  redis w !! lock_key_of key = Some e ->
  (forall k : nat, (k < depth)%nat ->
     Redis.live (clock w + 100 * Z.of_nat k) e = true) ->
  let r := gwsp depth key ttl fallback_function lock_timeout w in
  fst r = Raised RecursionError
  /\ clock (snd r) = clock w + 100 * Z.of_nat depth
  /\ redis (snd r) = redis w
  /\ producer_calls (snd r) = producer_calls w.
Proof.
  intros Hkey Hlock Hlive r. subst r.
  rewrite (waiting_passes depth key ttl fallback_function lock_timeout w e)
    by assumption.
  repeat split.
Qed.

(** ** One caller alone: the steps add up to the function *)

Abbreviation step' := (step dumps loads).
Abbreviation run' := (run dumps loads).

Lemma run_app (key : string) (ttl : Z) (fallback_function : producer (V:=V))
    (lock_timeout : Z) (s1 s2 : list event) (s : system) :
  run' key ttl fallback_function lock_timeout (s1 ++ s2) s
  = run' key ttl fallback_function lock_timeout s2
      (run' key ttl fallback_function lock_timeout s1 s).
Proof. unfold run. apply fold_left_app. Qed.

Lemma gwsp_unfold (depth : nat) (key : string) (ttl : Z)
    (fallback_function : producer (V:=V)) (lock_timeout : Z) (w : world) :
  gwsp (S depth) key ttl fallback_function lock_timeout w
  = match Redis.get w key with
    | Some cached_data => (loaded loads cached_data, w)
    | None =>
        match Redis.setnx (lock_key_of key) "locked" w with
        | (true, w1) =>
            let w2 := Redis.expire (lock_key_of key) lock_timeout w1 in
            let (r, w3) :=
              produce_and_store dumps key ttl fallback_function w2 in
            (r, Redis.del (lock_key_of key) w3)
        | (false, w1) =>
            gwsp depth key ttl fallback_function lock_timeout (sleep 100 w1)
        end
    end.
Proof. reflexivity. Qed.

Lemma single_caller_agrees (depth : nat) (key : string) (ttl : Z)
    (fallback_function : producer (V:=V)) (lock_timeout : Z) (w : world) :
  exists schedule : list event,
    run' key ttl fallback_function lock_timeout schedule
      {| callers := [AtGet depth]; shared := w |}
    = {| callers :=
           [Done (fst (gwsp (S depth) key ttl fallback_function
                         lock_timeout w))];
         shared := snd (gwsp (S depth) key ttl fallback_function
                          lock_timeout w) |}.
Proof.
  revert w. induction depth as [|depth IH]; intros w.
  all: rewrite gwsp_unfold.
  all: destruct (Redis.get w key) as [c|] eqn:Hget;
    [exists [Run 0]; cbn; rewrite Hget; reflexivity|].
  all: destruct (Redis.setnx (lock_key_of key) "locked" w) as [[|] w1] eqn:Hnx.
  - (* the lock is free *)
    unfold produce_and_store.
    destruct (fallback_function
                (clock (Redis.expire (lock_key_of key) lock_timeout w1)))
      as [elapsed [v|msg]] eqn:Hf.
    + destruct (dumps v) as [js|] eqn:Hd;
        [destruct (Redis.setex key ttl js _) as [w4|] eqn:Hx|];
        exists [Run 0; Run 0; Run 0; Run 0; Tick elapsed; Run 0; Run 0; Run 0];
        cbn; rewrite Hget; cbn; rewrite Hnx; cbn; rewrite Hf; cbn;
        rewrite Z.ltb_irrefl; cbn; rewrite Hd; cbn; rewrite ?Hx; reflexivity.
    + exists [Run 0; Run 0; Run 0; Run 0; Tick elapsed; Run 0; Run 0].
      cbn. rewrite Hget. cbn. rewrite Hnx. cbn. rewrite Hf. cbn.
      rewrite Z.ltb_irrefl. reflexivity.
  - (* the lock is held and no frame is left *)
    exists [Run 0; Run 0; Tick 100; Run 0].
    cbn. rewrite Hget. cbn. rewrite Hnx. cbn.
    rewrite Z.ltb_irrefl. reflexivity.
  - unfold produce_and_store.
    destruct (fallback_function
                (clock (Redis.expire (lock_key_of key) lock_timeout w1)))
      as [elapsed [v|msg]] eqn:Hf.
    + destruct (dumps v) as [js|] eqn:Hd;
        [destruct (Redis.setex key ttl js _) as [w4|] eqn:Hx|];
        exists [Run 0; Run 0; Run 0; Run 0; Tick elapsed; Run 0; Run 0; Run 0];
        cbn; rewrite Hget; cbn; rewrite Hnx; cbn; rewrite Hf; cbn;
        rewrite Z.ltb_irrefl; cbn; rewrite Hd; cbn; rewrite ?Hx; reflexivity.
    + exists [Run 0; Run 0; Run 0; Run 0; Tick elapsed; Run 0; Run 0].
      cbn. rewrite Hget. cbn. rewrite Hnx. cbn. rewrite Hf. cbn.
      rewrite Z.ltb_irrefl. reflexivity.
  - (* the lock is held: sleep, then the function again *)
    destruct (IH (sleep 100 w1)) as [schedule Hs].
    exists ([Run 0; Run 0; Tick 100; Run 0] ++ schedule).
    rewrite run_app, <- Hs. f_equal.
    cbn. rewrite Hget. cbn. rewrite Hnx. cbn.
    rewrite Z.ltb_irrefl. reflexivity.
Qed.

(** ** A holder that stops between [SETNX] and [EXPIRE] *)

Lemma wedged_step (key : string) (ttl : Z)
    (fallback_function : producer (V:=V)) (lock_timeout : Z)
    (s : system) (ev : event) :
  wedged key s -> ev <> Run 0 ->
  wedged key (step' key ttl fallback_function lock_timeout s ev)
  /\ producer_calls (shared (step' key ttl fallback_function lock_timeout s ev))
     = producer_calls (shared s).
Proof.
  intros (Hget & Hlock & others & Hc & Hw) Hev.
  destruct ev as [[|j]|ms]; [congruence| |].
  - (* another caller takes a step *)
    cbn [step]. rewrite Hc.
    change ((AtExpire :: others) !! S j) with (others !! j).
    destruct (others !! j) as [p|] eqn:Hp;
      [|split; [|reflexivity]; repeat split; eauto].
    pose proof (Forall_lookup_1 _ _ _ _ Hw Hp) as Hwp.
    assert (G : exists p', step_caller dumps loads key ttl fallback_function
                             lock_timeout p (shared s) = (p', shared s)
                           /\ waiting p').
    { destruct p as [d|d| | | | | |u d|r]; try contradiction;
        cbn [step_caller].
      - rewrite Hget. eexists; split; [reflexivity|exact I].
      - unfold Redis.setnx, Redis.lookup. rewrite Hlock. cbn.
        eexists; split; [reflexivity|exact I].
      - destruct (clock (shared s) <? u); [|destruct d];
          eexists; (split; [reflexivity|exact I]).
      - eexists; split; [reflexivity|exact Hwp]. }
    destruct G as (p' & -> & Hp'). cbn [callers shared].
    split; [|reflexivity]. split; [exact Hget|]. split; [exact Hlock|].
    exists (<[j := p']> others). split; [reflexivity|].
    now apply Forall_insert.
  - (* time passes *)
    cbn [step callers shared]. split; [|reflexivity]. split; [|split].
    + apply (get_none_later (shared s)); [reflexivity| |exact Hget].
      cbn [shared sleep set_clock clock]. pose proof (N2Z.is_nonneg ms). lia.
    + exact Hlock.
    + eauto.
Qed.

Lemma wedged_run (key : string) (ttl : Z)
    (fallback_function : producer (V:=V)) (lock_timeout : Z)
    (schedule : list event) (s : system) :
  wedged key s -> never_runs 0 schedule ->
  wedged key (run' key ttl fallback_function lock_timeout schedule s)
  /\ producer_calls (shared (run' key ttl fallback_function lock_timeout
                               schedule s))
     = producer_calls (shared s).
Proof.
  revert s. induction schedule as [|ev schedule IH]; intros s Hs Hn.
  - split; [exact Hs|reflexivity].
  - apply Forall_cons_1 in Hn as [Hev Hn]. cbn [run fold_left].
    destruct (wedged_step key ttl fallback_function lock_timeout s ev Hs Hev)
      as [Hs' Hp'].
    destruct (IH _ Hs' Hn) as [Hs'' Hp'']. split; [exact Hs''|].
    unfold run in Hp''. rewrite Hp''. exact Hp'.
Qed.

(** C6 fails on the code. The lock is written by [SETNX], which gives it no
    expiry; the expiry comes with a second command. A holder that stops
    between the two leaves a lock that never goes away: whatever the other
    callers do and however much time passes, the lock is still there, no
    caller comes back with a value and the producer is never run. *)
Theorem crashed_holder_wedges_the_cache (key : string) (ttl : Z)
    (fallback_function : producer (V:=V)) (lock_timeout : Z)
    (n depth : nat) (w : world) (schedule : list event) :
  Redis.get w key = None ->
  Redis.lookup w (lock_key_of key) = None ->
  never_runs 0 schedule ->
  let s := run' key ttl fallback_function lock_timeout
             ([Run 0; Run 0] ++ schedule) (enter (S n) depth w) in
  callers s !! 0%nat = Some AtExpire
  /\ Redis.lookup (shared s) (lock_key_of key) = Some held
  /\ (forall (j : nat) (p : pc), callers s !! j = Some p -> has_value p = false)
  /\ producer_calls (shared s) = producer_calls w.
Proof.
  intros Hget Hlock Hn s. subst s. unfold run. rewrite fold_left_app.
  set (s2 := fold_left _ [Run 0; Run 0] _).
  assert (Hs2 : s2 = {| callers := AtExpire :: replicate n (AtGet depth);
                        shared := set_redis (<[lock_key_of key := held]>
                                               (redis w)) w |}).
  { subst s2. cbn [fold_left step enter callers shared replicate lookup
                   list_lookup step_caller].
    rewrite Hget. cbn [callers shared lookup list_lookup step_caller
                       insert list_insert].
    unfold Redis.setnx. rewrite Hlock. reflexivity. }
  assert (W2 : wedged key s2).
  { rewrite Hs2. split; [|split].
    - apply (get_none_later w); [|reflexivity|exact Hget].
      cbn [shared redis set_redis].
      apply lookup_insert_ne, lock_key_of_neq.
    - cbn [shared redis set_redis]. apply lookup_insert_eq.
    - exists (replicate n (AtGet depth)). split; [reflexivity|].
      apply Forall_replicate. exact I. }
  destruct (wedged_run key ttl fallback_function lock_timeout schedule s2
              W2 Hn) as [(Hg & Hl & others & Hc & Hw) Hp].
  unfold run in *. split; [now rewrite Hc|]. split; [|split].
  - unfold Redis.lookup. rewrite Hl. reflexivity.
  - intros j p Hj. rewrite Hc in Hj. destruct j as [|j].
    + injection Hj as <-. reflexivity.
    + change (others !! j = Some p) in Hj.
      pose proof (Forall_lookup_1 _ _ _ _ Hw Hj) as Hwp.
      destruct p as [| | | | | | | |[]]; try contradiction; reflexivity.
  - rewrite Hp, Hs2. reflexivity.
Qed.

End StampedeFacts.

Section StampedeRuns.
Import World Stampede.

(** JSON strings stand for themselves in the runs below. *)
Abbreviation plain := (@Some string).

Lemma waiting_has_no_bound_of_its_own_witness :
  let w := held_world 0 "product:42" in
  let e := {| value := "locked"; deadline := None |} in
  let r := get_with_stampede_protection plain plain 1000 "product:42" 60
             (fun _ => (0%N, inl "fresh"%string)) 5 w in
  redis w !! "product:42"%string = None
  /\ redis w !! lock_key_of "product:42" = Some e
  /\ fst r = Raised RecursionError
  /\ clock (snd r) = 100000.
Proof.
  intros w e r. split; [reflexivity|]. split; [reflexivity|].
  destruct (waiting_has_no_bound_of_its_own plain plain 1000 "product:42" 60
              (fun _ => (0%N, inl "fresh"%string)) 5 w e)
    as (H1 & H2 & _); [reflexivity|reflexivity|intros k _; reflexivity|].
  split; [exact H1|exact H2].
Defined.

(** C2, as stated, fails: with the lock held and never released, a caller
    with the interpreter's usual thousand frames retries for a hundred
    seconds and ends with [RecursionError], and no wait is long enough to be
    the bound: a deeper stack waits longer. *)
Lemma waiter_gets_no_timeout :
  (let r := get_with_stampede_protection plain plain 1000 "product:42" 60
              (fun _ => (0%N, inl "fresh"%string)) 5
              (held_world 0 "product:42") in
   fst r = Raised RecursionError /\ clock (snd r) = 100000)
  /\ ~ exists bound : Z, forall depth : nat,
         clock (snd (get_with_stampede_protection plain plain depth
                       "product:42" 60 (fun _ => (0%N, inl "fresh"%string)) 5
                       (held_world 0 "product:42")))
         <= bound.
Proof.
  assert (P : forall depth : nat,
            get_with_stampede_protection plain plain depth "product:42" 60
              (fun _ => (0%N, inl "fresh"%string)) 5 (held_world 0 "product:42")
            = (Raised RecursionError,
               sleep (100 * Z.of_nat depth) (held_world 0 "product:42"))).
  { intros depth. apply (waiting_passes plain plain) with (e := held);
      [reflexivity|reflexivity|intros k _; reflexivity]. }
  split.
  - rewrite P. split; reflexivity.
  - intros [bound H]. specialize (H (Z.to_nat (Z.max 0 bound + 1))).
    rewrite P in H. cbn [snd sleep set_clock clock held_world] in H. lia.
Qed.

Lemma producer_failure_leaves_no_entry_witness :
  let w := empty_world 0 in
  let f : producer (V:=string) := fun _ => (200%N, inr "db down"%string) in
  let r := get_with_stampede_protection plain plain 1 "product:42" 60 f 5 w in
  Redis.get w "product:42" = None
  /\ Redis.lookup w (lock_key_of "product:42") = None
  /\ f (clock w) = (200%N, inr "db down"%string)
  /\ fst r = Raised (ProducerError "db down")
  /\ Redis.get (snd r) "product:42" = None
  /\ redis (snd r) !! lock_key_of "product:42" = None.
Proof.
  intros w f r. split; [reflexivity|]. split; [reflexivity|].
  split; [reflexivity|].
  destruct (producer_failure_leaves_no_entry plain plain 0 "product:42" 60 f 5
              w 200%N "db down"%string)
    as (H1 & H2 & _ & H3 & _); [reflexivity..|].
  auto.
Defined.

(** C1 fails on the code. Two callers miss at the same time; the first takes
    the lock, runs the producer, stores the value and releases the lock; the
    second, which had already seen the miss, then takes the free lock and
    runs the producer again. *)
Theorem two_callers_run_the_producer_twice :
  let f : producer (V:=string) := fun _ => (200%N, inl "fresh"%string) in
  let schedule :=
    [Run 0; Run 1;
     Run 0; Run 0; Run 0; Tick 200; Run 0; Run 0; Run 0;
     Run 1; Run 1; Run 1; Tick 200; Run 1; Run 1; Run 1]%nat in
  let s := run plain plain "page:1" 30 f 5 schedule
             (enter 2 100 (empty_world 0)) in
  callers s = [Done (Returned "fresh"%string); Done (Returned "fresh"%string)]
  /\ producer_calls (shared s) = 2%nat.
Proof. split; reflexivity. Qed.

(** The same happens without any unlucky timing when the producer is slower
    than the lock: the lock expires after [lock_timeout] seconds, a waiter
    takes it and runs the producer while the first run is still going on. *)
Lemma slow_producer_runs_twice :
  let f : producer (V:=string) := fun _ => (6000%N, inl "fresh"%string) in
  let schedule :=
    [Run 0; Run 0; Run 0; Run 0;
     Run 1; Run 1; Tick 100; Run 1; Tick 4900;
     Run 1; Run 1; Run 1; Run 1]%nat in
  let s := run plain plain "page:1" 30 f 5 schedule
             (enter 2 100 (empty_world 0)) in
  callers s = [Computing 6000 (inl "fresh"%string);
               Computing 11000 (inl "fresh"%string)]
  /\ clock (shared s) = 5000
  /\ producer_calls (shared s) = 2%nat.
Proof. repeat split. Qed.

Lemma crashed_holder_wedges_the_cache_witness :
  let f : producer (V:=string) := fun _ => (200%N, inl "fresh"%string) in
  let schedule := [Run 1; Run 1; Tick 6000; Run 1; Run 2; Tick 60000;
                   Run 1; Run 1; Run 2; Run 2]%nat in
  let s := run plain plain "page:1" 30 f 5 ([Run 0; Run 0]%nat ++ schedule)
             (enter 3 100 (empty_world 0)) in
  Redis.get (empty_world 0) "page:1" = None
  /\ never_runs 0 schedule
  /\ clock (shared s) = 66000
  /\ Redis.lookup (shared s) (lock_key_of "page:1") = Some held
  /\ (forall (j : nat) (p : pc), callers s !! j = Some p -> has_value p = false).
Proof.
  intros f schedule s.
  assert (Hn : never_runs 0 schedule)
    by (repeat (apply Forall_cons_2; [discriminate|]); apply Forall_nil_2).
  split; [reflexivity|]. split; [exact Hn|]. split; [reflexivity|].
  destruct (crashed_holder_wedges_the_cache plain plain "page:1" 30 f 5 2 100
              (empty_world 0) schedule) as (_ & H2 & H3 & _);
    [reflexivity|reflexivity|exact Hn|].
  split; [exact H2|exact H3].
Defined.

End StampedeRuns.

(* ===================================================================== *)
(** * [get_products]: keys and pages *)
(* ===================================================================== *)

Section PaginationFacts.
Import World Products Pagination.

(** ** Cache keys of the in-process cache *)

Lemma cut_at_first_outside (C : ascii -> bool) (x1 x2 r1 r2 : list ascii)
    (c1 c2 : ascii) :
  x1 ++ c1 :: r1 = x2 ++ c2 :: r2 ->
  forallb C x1 = true -> forallb C x2 = true ->
  C c1 = false -> C c2 = false ->
  x1 = x2 /\ r1 = r2.
Proof.
  revert x2. induction x1 as [|a x1 IH]; intros [|b x2] E H1 H2 N1 N2;
    cbn [app forallb] in *.
  - injection E as _ E. auto.
  - injection E as -> _. apply andb_prop in H2 as [H2 _]. congruence.
  - injection E as -> _. apply andb_prop in H1 as [H1 _]. congruence.
  - injection E as -> E. apply andb_prop in H1 as [_ H1].
    apply andb_prop in H2 as [_ H2].
    destruct (IH x2 E H1 H2 N1 N2) as [-> ->]. auto.
Qed.

Lemma products_page_key_inj (page per_page page' per_page' : Z) :
  products_page_key page per_page = products_page_key page' per_page' ->
  page = page' /\ per_page = per_page'.
Proof.
  unfold products_page_key. intros H.
  apply (f_equal RedisCache.chars) in H. rewrite !chars_app in H.
  apply app_inv_head in H.
  change (RedisCache.chars "_per_page_")
    with ("_"%char :: RedisCache.chars "per_page_") in H.
  apply (cut_at_first_outside RedisCache.int_char) in H as [H1 H2];
    try apply int_repr_chars; try reflexivity.
  apply int_repr_inj in H1. apply app_inv_head in H2.
  apply int_repr_inj in H2. auto.
Qed.

(** X1. Two different (page, per_page) pairs never share a cache key, two
    different product ids neither, and a page key is never a product key:
    the entries of [get_products] and of [get_product_by_id] cannot overwrite
    one another. *)
Theorem in_process_keys_distinct (page per_page page' per_page' : Z)
    (product_id product_id' : Z) :
  (products_page_key page per_page = products_page_key page' per_page' <->
   page = page' /\ per_page = per_page')
  /\ (product_key product_id = product_key product_id' <->
      product_id = product_id')
  /\ products_page_key page per_page <> product_key product_id.
Proof.
  split; [|split].
  - split; [apply products_page_key_inj|]. now intros [-> ->].
  - split; [apply product_key_inj|]. now intros ->.
  - intros H. symmetry in H. revert H. apply product_key_not_page_key.
Qed.

(** ** Slices of a list *)

Lemma concat_slices {A : Type} (n : nat) (k : nat) :
  forall l : list A,
  (length l <= k * n)%nat ->
  concat (map (fun i => take n (drop (i * n) l)) (seq 0 k)) = l.
Proof.
  induction k as [|k IH]; intros l Hl.
  - destruct l; [reflexivity|simpl in Hl; lia].
  - cbn [seq map concat]. rewrite <- seq_shift, map_map.
    cbn [Nat.mul drop]. rewrite drop_0.
    rewrite <- (take_drop n l) at 2. f_equal.
    transitivity
      (concat (map (fun i => take n (drop (i * n) (drop n l))) (seq 0 k))).
    + apply (f_equal (@concat A)). apply map_ext. intros i.
      rewrite drop_drop. f_equal.
    + apply IH. rewrite length_drop. lia.
Qed.

Lemma length_listing (t : list row) : length (listing t) = length t.
Proof.
  unfold listing. rewrite length_map.
  apply Permutation_length, merge_sort_Permutation.
Qed.

Lemma fresh_page_slice (per_page : Z) (w : world) (page : nat) :
  0 < per_page ->
  fresh_page per_page w (S page)
  = take (Z.to_nat per_page)
      (drop (page * Z.to_nat per_page) (listing (table w))).
Proof.
  intros Hp. unfold fresh_page, get_products. rewrite fresh_entry_off.
  destruct (Z.eqb_spec per_page 0) as [->|_]; [lia|]. cbn [fst products_of].
  unfold select_page, listing.
  destruct (Z.ltb_spec per_page 0) as [|_]; [lia|].
  rewrite skipn_map, firstn_map. do 3 f_equal. nia.
Qed.

Lemma pages_bounds (total per_page : Z) :
  0 <= total -> 0 < per_page ->
  let pages := (total + per_page - 1) / per_page in
  (pages - 1) * per_page < total <= pages * per_page /\ 0 <= pages.
Proof.
  intros Ht Hp pages. subst pages.
  pose proof (Z.div_mod (total + per_page - 1) per_page ltac:(lia)) as E.
  pose proof (Z.mod_pos_bound (total + per_page - 1) per_page Hp) as B.
  assert (0 <= (total + per_page - 1) / per_page)
    by (apply Z.div_pos; lia).
  nia.
Qed.

(** X2. For a positive [per_page], whenever [get_products] computes its
    result from the table (the cache is off, or holds no entry younger than
    30 seconds under the key), the number of pages it reports is the least
    number of pages that holds all rows: the last page is not empty and no
    row is left over. *)
Theorem get_products_pages_is_ceiling (page per_page : Z) (use_cache : bool)
    (w : world) :
  0 < per_page ->
  (use_cache = false
   \/ forall e : cache_entry,
        _cache w !! products_page_key page per_page = Some e ->
        30000 <= clock w - ce_timestamp e) ->
  let total := Z.of_nat (length (table w)) in
  let pages := pages_of (fst (get_products page per_page use_cache w)) in
  (pages - 1) * per_page < total <= pages * per_page.
Proof.
  intros Hp Hold total pages. subst pages. unfold get_products.
  rewrite fresh_entry_stale by exact Hold.
  destruct (Z.eqb_spec per_page 0) as [->|_]; [lia|].
  assert (B : (((total + per_page - 1) / per_page) - 1) * per_page < total
              <= ((total + per_page - 1) / per_page) * per_page)
    by (apply pages_bounds; lia).
  destruct use_cache; cbn [fst pages_of]; exact B.
Qed.

(** Five rows read two at a time with the cache on, over an entry of 30
    seconds that was stored when the table had one row: three pages. *)
Lemma get_products_pages_is_ceiling_witness :
  let w := sleep 30000
             (set_table (map sample_row [1; 2; 3; 4; 5])
                (snd (get_products 1 2 true (start 0 [sample_row 1] ∅)))) in
  0 < 2
  /\ (exists e : cache_entry,
        _cache w !! products_page_key 1 2 = Some e
        /\ pages_of (inl (ce_data e)) = 1)
  /\ pages_of (fst (get_products 1 2 true w)) = 3.
Proof.
  intros w. split; [lia|].
  split; [eexists; split; reflexivity|].
  assert (Hold : true = false
                 \/ forall e : cache_entry,
                      _cache w !! products_page_key 1 2 = Some e ->
                      30000 <= clock w - ce_timestamp e).
  { right. intros e He.
    assert (H0 : _cache w !! products_page_key 1 2
                 = Some {| ce_data := Page [(1, "Product 1"%string, 1099)]
                                        1 2 1 1 0;
                           ce_timestamp := 0 |}) by reflexivity.
    rewrite H0 in He. injection He as <-. vm_compute. discriminate. }
  pose proof (get_products_pages_is_ceiling 1 2 true w ltac:(lia) Hold) as H.
  cbv zeta in H. change (Z.of_nat (length (table w))) with 5 in H. lia.
Defined.

(** X3. For a positive [per_page], page [p] (from 1) holds the rows
    [(p-1) * per_page] to [p * per_page - 1] of the table in id order: it has
    [per_page] rows, fewer on the last page, none beyond it. *)
Theorem get_products_page_size (per_page : Z) (w : world) (page : nat) :
  0 < per_page ->
  Z.of_nat (length (fresh_page per_page w (S page)))
  = Z.min per_page
      (Z.max 0 (Z.of_nat (length (table w)) - Z.of_nat page * per_page)).
Proof.
  intros Hp. rewrite fresh_page_slice by exact Hp.
  rewrite length_take, length_drop, length_listing. nia.
Qed.

Lemma get_products_page_size_witness :
  let w := start 0 (map sample_row [1; 2; 3; 4; 5]) ∅ in
  0 < 2
  /\ length (fresh_page 2 w 3) = 1%nat
  /\ length (fresh_page 2 w 4) = 0%nat.
Proof.
  intros w. split; [lia|].
  pose proof (get_products_page_size 2 w 2 ltac:(lia)) as H2.
  pose proof (get_products_page_size 2 w 3 ltac:(lia)) as H3.
  change (length (table w)) with 5%nat in *. lia.
Defined.

(** X4. For a positive [per_page], reading the pages 1 to [pages] one after
    the other gives every row of the table exactly once, in id order. *)
Theorem get_products_pages_cover_table (per_page : Z) (w : world) :
  0 < per_page ->
  let pages := pages_of (fst (get_products 1 per_page false w)) in
  concat (map (fresh_page per_page w) (seq 1 (Z.to_nat pages)))
  = listing (table w).
Proof.
  intros Hp pages.
  assert (B : Z.of_nat (length (table w)) <= pages * per_page /\ 0 <= pages).
  { subst pages. unfold get_products. rewrite fresh_entry_off.
    destruct (Z.eqb_spec per_page 0) as [->|_]; [lia|]. cbn [fst pages_of].
    pose proof (pages_bounds (Z.of_nat (length (table w))) per_page
                  ltac:(lia) Hp) as B. cbv zeta in B. lia. }
  rewrite <- seq_shift, map_map.
  erewrite map_ext; [|intros i; apply fresh_page_slice; exact Hp].
  apply concat_slices. rewrite length_listing. nia.
Qed.

Lemma get_products_pages_cover_table_witness :
  let w := start 0 (map sample_row [3; 1; 2]) ∅ in
  0 < 2
  /\ fresh_page 2 w 1 ++ fresh_page 2 w 2
     = [(1, "Product 1"%string, 1099); (2, "Product 2"%string, 2198);
        (3, "Product 3"%string, 3297)].
Proof.
  intros w. split; [lia|].
  pose proof (get_products_pages_cover_table 2 w ltac:(lia)) as H.
  cbv zeta in H.
  change (Z.to_nat (pages_of (fst (get_products 1 2 false w)))) with 2%nat in H.
  cbn [seq map concat] in H. rewrite app_nil_r in H. rewrite H. reflexivity.
Defined.

End PaginationFacts.

(* ===================================================================== *)
(** * The cached readers and [update_product] *)
(* ===================================================================== *)

Section ReaderFacts.
Import World Products Pagination.

Lemma get_products_miss (page per_page : Z) (w : world) :
  fresh_entry true (products_page_key page per_page) 30000 w = None ->
  per_page <> 0 ->
  exists result : data,
    get_products page per_page true w
    = (inl result,
       set_cache (<[products_page_key page per_page :=
                    {| ce_data := result; ce_timestamp := clock w |}]>
                    (_cache w)) w).
Proof.
  intros Hmiss Hp. unfold get_products. rewrite Hmiss.
  destruct (Z.eqb_spec per_page 0) as [|_]; [contradiction|]. eauto.
Qed.

Lemma get_product_by_id_miss (product_id : Z) (w : world) (product : row) :
  fresh_entry true (product_key product_id) 60000 w = None ->
  select_by_id product_id (table w) = Some product ->
  get_product_by_id product_id true w
  = (Some (Product product 500),
     set_cache (<[product_key product_id :=
                  {| ce_data := Product product 500;
                     ce_timestamp := clock w + 500 |}]> (_cache w))
       (sleep 500 w)).
Proof.
  intros Hmiss Hrow. unfold get_product_by_id. rewrite Hmiss.
  cbn [sleep set_clock table clock]. rewrite Hrow.
  replace (clock w + 500 - clock w) with 500 by lia. reflexivity.
Qed.

(** X5. After a call of [get_products] that found no young entry, the same
    call within the next 30 seconds returns the same result from [_cache]
    and changes nothing, whatever has happened to the table since. *)
Theorem get_products_serves_from_cache (page per_page : Z) (w : world)
    (d : Z) (t' : list row) :
  fresh_entry true (products_page_key page per_page) 30000 w = None ->
  per_page <> 0 ->
  0 <= d < 30000 ->
  let r := get_products page per_page true w in
  let w' := set_table t' (sleep d (snd r)) in
  get_products page per_page true w' = (fst r, w').
Proof.
  intros Hmiss Hp Hd r w'. subst w' r.
  destruct (get_products_miss page per_page w Hmiss Hp) as [result ->].
  cbn [fst snd]. unfold get_products.
  rewrite (fresh_entry_young _ _ _
             {| ce_data := result; ce_timestamp := clock w |});
    [reflexivity| |].
  - cbn [_cache set_table sleep set_clock set_cache]. apply lookup_insert_eq.
  - cbn [clock set_table sleep set_clock set_cache ce_timestamp]. lia.
Qed.

Lemma get_products_serves_from_cache_witness :
  let w := start 0 (map sample_row [1; 2; 3]) ∅ in
  let r := get_products 1 2 true w in
  fresh_entry true (products_page_key 1 2) 30000 w = None
  /\ 2 <> 0 /\ 0 <= 29999 < 30000
  /\ fst (get_products 1 2 true (set_table [] (sleep 29999 (snd r))))
     = inl (Page [(1, "Product 1"%string, 1099); (2, "Product 2"%string, 2198)]
              1 2 3 2 0).
Proof.
  intros w r. split; [reflexivity|]. split; [lia|]. split; [lia|].
  subst r. rewrite (get_products_serves_from_cache 1 2 w 29999 []);
    [reflexivity|reflexivity|lia|lia].
Defined.

(** X6. A call of [get_product_by_id] that found no young entry and found
    the row takes its half second and returns the row; the same call within
    the next minute returns the same result from [_cache] without sleeping,
    whatever has happened to the table since. *)
Theorem get_product_by_id_serves_from_cache (product_id : Z) (w : world)
    (product : row) (d : Z) (t' : list row) :
  fresh_entry true (product_key product_id) 60000 w = None ->
  select_by_id product_id (table w) = Some product ->
  0 <= d < 60000 ->
  let r := get_product_by_id product_id true w in
  let w' := set_table t' (sleep d (snd r)) in
  fst r = Some (Product product 500)
  /\ clock (snd r) = clock w + 500
  /\ get_product_by_id product_id true w' = (fst r, w').
Proof.
  intros Hmiss Hrow Hd r w'. subst w' r.
  rewrite (get_product_by_id_miss product_id w product Hmiss Hrow).
  cbn [fst snd]. split; [reflexivity|]. split; [reflexivity|].
  unfold get_product_by_id.
  rewrite (fresh_entry_young _ _ _
             {| ce_data := Product product 500;
                ce_timestamp := clock w + 500 |});
    [reflexivity| |].
  - cbn [_cache set_table sleep set_clock set_cache]. apply lookup_insert_eq.
  - cbn [clock set_table sleep set_clock set_cache ce_timestamp]. lia.
Qed.

Lemma get_product_by_id_serves_from_cache_witness :
  let w := start 0 (map sample_row [1; 2; 3]) ∅ in
  let r := get_product_by_id 2 true w in
  fresh_entry true (product_key 2) 60000 w = None
  /\ select_by_id 2 (table w) = Some (sample_row 2)
  /\ 0 <= 1000 < 60000
  /\ get_product_by_id 2 true (set_table [] (sleep 1000 (snd r)))
     = (Some (Product (sample_row 2) 500), set_table [] (sleep 1000 (snd r))).
Proof.
  intros w r. split; [reflexivity|]. split; [reflexivity|]. split; [lia|].
  destruct (get_product_by_id_serves_from_cache 2 w (sample_row 2) 1000 [])
    as (H1 & _ & H3); [reflexivity|reflexivity|lia|].
  fold r in H1, H3. rewrite H3, H1. reflexivity.
Defined.

(** ** [per_page = 0] *)

Lemma no_zero_page_run_op (o : op) (w : world) :
  no_zero_page w -> no_zero_page (run_op o w).
Proof.
  intros Hw page. destruct o as [p pp uc|pid uc|pid n pr d|r|ms]; cbn [run_op].
  - unfold get_products.
    destruct (fresh_entry uc _ 30000 w); [apply Hw|].
    destruct (Z.eqb_spec pp 0) as [|Hpp]; [apply Hw|].
    destruct uc; [|apply Hw]. cbn [snd set_cache _cache].
    rewrite lookup_insert_ne; [apply Hw|].
    intros H. apply products_page_key_inj in H as [_ H]. congruence.
  - unfold get_product_by_id.
    destruct (fresh_entry uc _ 60000 w); [apply Hw|].
    destruct (select_by_id pid (table (sleep 500 w))); [|apply Hw].
    destruct uc; [|apply Hw]. cbn [snd set_cache _cache sleep set_clock].
    rewrite lookup_insert_ne by apply product_key_not_page_key. apply Hw.
  - destruct (update_product_keeps_cache pid n pr d w) as [-> _]. apply Hw.
  - apply Hw.
  - apply Hw.
Qed.

Lemma no_zero_page_run_ops (ops : list op) (w : world) :
  no_zero_page w -> no_zero_page (run_ops ops w).
Proof.
  revert w. induction ops as [|o ops IH]; intros w Hw; [exact Hw|].
  apply IH, no_zero_page_run_op, Hw.
Qed.

(** X7. In every state the process can reach, [get_products] with
    [per_page = 0] raises [ZeroDivisionError], with or without the cache, and
    leaves the state as it was: the division of line 51 comes before the
    cache is written, so no such page is ever cached. *)
Theorem get_products_zero_per_page (now : Z) (rows : list row)
    (r : gmap string redis_entry) (ops : list op) (page : Z)
    (use_cache : bool) :
  let w := run_ops ops (start now rows r) in
  get_products page 0 use_cache w = (inr ZeroDivisionError, w).
Proof.
  intros w.
  assert (Hw : no_zero_page w).
  { apply no_zero_page_run_ops. intros p. apply lookup_empty. }
  unfold get_products. rewrite fresh_entry_absent by apply Hw. reflexivity.
Qed.

(** ** [update_product] and the table *)

Lemma select_by_id_map_other (f : row -> row) (pid pid' : Z) (t : list row) :
  (forall r, id (f r) = id r) ->
  (forall r, id r <> pid -> f r = r) ->
  pid' <> pid ->
  select_by_id pid' (map f t) = select_by_id pid' t.
Proof.
  intros Hid Hf Hne. unfold select_by_id. induction t as [|r t IH];
    [reflexivity|].
  cbn [map find]. rewrite Hid. destruct (Z.eqb_spec (id r) pid') as [E|_].
  - rewrite Hf by congruence. reflexivity.
  - exact IH.
Qed.

Lemma update_product_table (product_id : Z) (n : option string)
    (p : option Z) (d : option string) (w : world) :
  fst (update_product product_id n p d w) = true ->
  table (snd (update_product product_id n p d w))
  = map (fun r => if id r =? product_id then update_row n p d r else r)
      (table w).
Proof.
  unfold update_product. destruct n, p, d; try reflexivity. discriminate.
Qed.

(** X8. An update that returns [True] changes the row with the given id in
    the columns that were given and in no other; the other rows, the ids and
    the number of rows stay as they were. *)
Theorem update_product_changes_one_row (product_id : Z) (n : option string)
    (p : option Z) (d : option string) (w : world) :
  fst (update_product product_id n p d w) = true ->
  let w' := snd (update_product product_id n p d w) in
  select_by_id product_id (table w')
  = update_row n p d <$> select_by_id product_id (table w)
  /\ (forall other : Z, other <> product_id ->
      select_by_id other (table w') = select_by_id other (table w))
  /\ map id (table w') = map id (table w).
Proof.
  intros Hok w'. subst w'. rewrite update_product_table by exact Hok.
  assert (Hid : forall r : row,
            id (if id r =? product_id then update_row n p d r else r) = id r)
    by (intros r; now destruct (id r =? product_id)).
  split; [|split].
  - rewrite select_by_id_map by exact Hid.
    destruct (select_by_id product_id (table w)) as [r|] eqn:Hr;
      [|reflexivity].
    cbn. apply find_some in Hr as [_ Hr]. now rewrite Hr.
  - intros other Ho.
    apply (select_by_id_map_other _ product_id); [exact Hid| |exact Ho].
    intros r Hr. destruct (Z.eqb_spec (id r) product_id); congruence.
  - rewrite map_map. apply map_ext. exact Hid.
Qed.

Lemma update_product_changes_one_row_witness :
  let w := start 0 (map sample_row [1; 2]) ∅ in
  let w' := snd (update_product 2 None (Some 500) None w) in
  fst (update_product 2 None (Some 500) None w) = true
  /\ (price <$> select_by_id 2 (table w') = Some 500)
  /\ (name <$> select_by_id 2 (table w') = Some "Product 2"%string)
  /\ select_by_id 1 (table w') = Some (sample_row 1).
Proof.
  intros w w'. split; [reflexivity|].
  destruct (update_product_changes_one_row 2 None (Some 500) None w)
    as (H1 & H2 & _); [reflexivity|].
  fold w' in H1, H2. rewrite H1, (H2 1) by lia. repeat split.
Defined.

(** X9. [update_product] does not look whether the row exists: for an id
    without a row it still returns [True] when a column was given, and the
    table is unchanged. *)
Theorem update_product_absent_row (product_id : Z) (n : option string)
    (p : option Z) (d : option string) (w : world) :
  select_by_id product_id (table w) = None ->
  is_Some n \/ is_Some p \/ is_Some d ->
  fst (update_product product_id n p d w) = true
  /\ table (snd (update_product product_id n p d w)) = table w.
Proof.
  intros Hrow Hgiven.
  assert (Hok : fst (update_product product_id n p d w) = true).
  { unfold update_product. destruct n, p, d; try reflexivity.
    destruct Hgiven as [[? H]|[[? H]|[? H]]]; discriminate H. }
  split; [exact Hok|]. rewrite update_product_table by exact Hok.
  unfold select_by_id in Hrow.
  rewrite <- (map_id (table w)) at 2. apply map_ext_in. intros r Hr.
  destruct (Z.eqb_spec (id r) product_id) as [E|_]; [|reflexivity].
  pose proof (find_none _ _ Hrow r Hr) as F. cbn in F.
  apply Z.eqb_neq in F. contradiction.
Qed.

Lemma update_product_absent_row_witness :
  let w := start 0 (map sample_row [1; 2]) ∅ in
  select_by_id 7 (table w) = None
  /\ (is_Some (Some "Lamp"%string) \/ is_Some (@None Z) \/ is_Some (@None string))
  /\ update_product 7 (Some "Lamp"%string) None None w = (true, w).
Proof.
  intros w. split; [reflexivity|]. split; [left; eexists; reflexivity|].
  destruct (update_product_absent_row 7 (Some "Lamp"%string) None None w)
    as [H1 H2]; [reflexivity|left; eexists; reflexivity|].
  reflexivity.
Defined.

(** X10. An update deletes from Redis the key of the product and the keys
    that start with [products_list:], and no other key; [_cache] and the
    clock are left alone. *)
Theorem update_product_deletes_only_its_keys (product_id : Z)
    (n : option string) (p : option Z) (d : option string) (w : world)
    (k : string) :
  k <> product_key product_id ->
  String.prefix "products_list:" k = false ->
  let w' := snd (update_product product_id n p d w) in
  redis w' !! k = redis w !! k /\ _cache w' = _cache w /\ clock w' = clock w.
Proof.
  intros Hk Hp w'. subst w'. unfold update_product.
  destruct n, p, d; cbn [snd]; try (repeat split; fail).
  all: cbn [Redis.del_prefix Redis.del redis set_redis set_table _cache clock].
  all: split; [|split; reflexivity].
  all: rewrite map_lookup_filter, lookup_delete_ne by congruence.
  all: destruct (redis w !! k) as [e|]; [|reflexivity].
  all: cbn; case_guard as Hg; [reflexivity|].
  all: cbn [fst snd] in Hg; rewrite Hp in Hg; cbn in Hg; congruence.
Qed.

Lemma update_product_deletes_only_its_keys_witness :
  let w := set_redis {[ "session:9"%string := {| value := "x"; deadline := None |} ]}
             (start 0 (map sample_row [1; 2]) ∅) in
  "session:9"%string <> product_key 1
  /\ String.prefix "products_list:" "session:9" = false
  /\ redis (snd (update_product 1 (Some "Lamp"%string) None None w))
       !! "session:9"%string
     = Some {| value := "x"; deadline := None |}.
Proof.
  intros w. split; [discriminate|]. split; [reflexivity|].
  destruct (update_product_deletes_only_its_keys 1 (Some "Lamp"%string)
              None None w "session:9") as (H & _);
    [discriminate|reflexivity|].
  rewrite H. reflexivity.
Defined.

End ReaderFacts.

(* ===================================================================== *)
(** * The wrapper of [redis_cache] *)
(* ===================================================================== *)

Section DecoratorFacts.
Import World Decorator.
Context {V : Type} (dumps : V -> option string) (loads : string -> option V).

Abbreviation wrapped := (redis_cache dumps loads).

Lemma get_after_setex (key : string) (ttl : Z) (s : string) (w w2 : world)
    (d : Z) :
  Redis.setex key ttl s w = Some w2 -> 0 <= d ->
  Redis.get (sleep d w2) key = if d <? 1000 * ttl then Some s else None.
Proof.
  unfold Redis.setex. destruct (0 <? ttl); [|discriminate].
  intros [= <-] Hd. unfold Redis.get, Redis.lookup.
  cbn [redis sleep set_clock set_redis clock]. rewrite lookup_insert_eq.
  unfold Redis.live. cbn [deadline].
  destruct (Z.ltb_spec d (1000 * ttl)), (Z.ltb_spec (clock w + d)
    (clock w + 1000 * ttl)); try lia; reflexivity.
Qed.

(** X11. A call that misses, whose function returns and whose result can be
    written as JSON with a positive [ttl]: the caller gets the result; for
    the next [ttl] seconds a call with the same arguments gets the stored
    text decoded, whatever the function would do now; from then on the
    function is called again. *)
Theorem redis_cache_serves_for_ttl (key_prefix : string) (ttl : Z)
    (f : pyfun (V:=V)) (args : list RedisCache.pyval)
    (kwargs : list (string * RedisCache.pyval)) (w w1 : world)
    (result : V) (s : string) :
  Redis.get w (RedisCache.cache_key key_prefix args kwargs) = None ->
  f args kwargs w = (inl result, w1) ->
  dumps result = Some s ->
  0 < ttl ->
  let r := wrapped key_prefix ttl f args kwargs w in
  fst r = inl result
  /\ forall d : Z, 0 <= d ->
       (d < 1000 * ttl ->
        forall f' : pyfun (V:=V),
          wrapped key_prefix ttl f' args kwargs (sleep d (snd r))
          = (decoded loads s, sleep d (snd r)))
       /\ (1000 * ttl <= d ->
           wrapped key_prefix ttl f args kwargs (sleep d (snd r))
           = call_and_store dumps
               (RedisCache.cache_key key_prefix args kwargs) ttl f args kwargs
               (sleep d (snd r))).
Proof.
  intros Hget Hf Hs Httl r. subst r.
  destruct (Redis.setex (RedisCache.cache_key key_prefix args kwargs) ttl s w1)
    as [w2|] eqn:Hx;
    [|unfold Redis.setex in Hx; destruct (Z.ltb_spec 0 ttl); [discriminate|lia]].
  assert (Hr : wrapped key_prefix ttl f args kwargs w = (inl result, w2)).
  { unfold redis_cache. rewrite Hget. unfold call_and_store.
    now rewrite Hf, Hs, Hx. }
  rewrite Hr. cbn [fst snd]. split; [reflexivity|].
  intros d Hd. split; intros Hlt.
  - intros f'. unfold redis_cache.
    rewrite (get_after_setex _ _ _ _ _ _ Hx Hd).
    destruct (Z.ltb_spec d (1000 * ttl)); [reflexivity|lia].
  - unfold redis_cache.
    rewrite (get_after_setex _ _ _ _ _ _ Hx Hd).
    destruct (Z.ltb_spec d (1000 * ttl)); [lia|reflexivity].
Qed.

(** X12. The wrapper writes under its own key only: a call with one logical
    name and argument list leaves the entry of every other one as it was
    (for a function that does not write to Redis itself). *)
Theorem redis_cache_writes_only_its_key (key_prefix : string) (ttl : Z)
    (f : pyfun (V:=V)) (args : list RedisCache.pyval)
    (kwargs : list (string * RedisCache.pyval)) (w : world)
    (key_prefix' : string) (args' : list RedisCache.pyval)
    (kwargs' : list (string * RedisCache.pyval)) :
  key_prefix' <> key_prefix \/ args' <> args \/ kwargs' <> kwargs ->
  (forall w0 : world, redis (snd (f args kwargs w0)) = redis w0) ->
  redis (snd (wrapped key_prefix ttl f args kwargs w))
    !! RedisCache.cache_key key_prefix' args' kwargs'
  = redis w !! RedisCache.cache_key key_prefix' args' kwargs'.
Proof.
  intros Hne Hf.
  assert (Hk : RedisCache.cache_key key_prefix args kwargs
               <> RedisCache.cache_key key_prefix' args' kwargs').
  { intros E. apply cache_key_inj in E as (? & ? & ?). intuition congruence. }
  unfold redis_cache. destruct (Redis.get w _); [reflexivity|].
  unfold call_and_store. specialize (Hf w).
  destruct (f args kwargs w) as [[result|e] w1]; cbn [snd] in Hf;
    [|cbn [snd]; now rewrite Hf].
  destruct (dumps result) as [s|]; [|cbn [snd]; now rewrite Hf].
  unfold Redis.setex. destruct (0 <? ttl); cbn [snd]; [|now rewrite Hf].
  cbn [redis set_redis]. rewrite lookup_insert_ne by exact Hk.
  now rewrite Hf.
Qed.

End DecoratorFacts.

Section DecoratorRuns.
Import World Decorator.

Abbreviation as_text := (@Some string).

Lemma redis_cache_serves_for_ttl_witness :
  let f : pyfun (V:=string) := fun _ _ w => (inl "[1, 2]"%string, sleep 40 w) in
  let w := Stampede.empty_world 0 in
  let r := redis_cache as_text as_text "report" 60 f [RedisCache.PyInt 7] [] w in
  Redis.get w (RedisCache.cache_key "report" [RedisCache.PyInt 7] []) = None
  /\ 0 < 60
  /\ fst r = inl "[1, 2]"%string
  /\ redis_cache as_text as_text "report" 60
       (fun _ _ w => (inr ZeroDivisionError, w)) [RedisCache.PyInt 7] []
       (sleep 59999 (snd r))
     = (inl "[1, 2]"%string, sleep 59999 (snd r)).
Proof.
  intros f w r. split; [reflexivity|]. split; [lia|].
  destruct (redis_cache_serves_for_ttl as_text as_text "report" 60 f
              [RedisCache.PyInt 7] [] w (sleep 40 w) "[1, 2]" "[1, 2]")
    as [H1 H2]; [reflexivity|reflexivity|reflexivity|lia|].
  split; [exact H1|].
  destruct (H2 59999 ltac:(lia)) as [H3 _]. apply H3. lia.
Defined.

Lemma redis_cache_writes_only_its_key_witness :
  let f : pyfun (V:=string) := fun _ _ w => (inl "[1, 2]"%string, w) in
  let w := Stampede.held_world 0 "report:(8,):{}" in
  ("report"%string <> "report"%string
   \/ [RedisCache.PyInt 8] <> [RedisCache.PyInt 7]
   \/ @nil (string * RedisCache.pyval) <> [])
  /\ redis (snd (redis_cache as_text as_text "report" 60 f
                   [RedisCache.PyInt 7] [] w))
       !! RedisCache.cache_key "report" [RedisCache.PyInt 8] []
     = redis w !! RedisCache.cache_key "report" [RedisCache.PyInt 8] [].
Proof.
  intros f w. split; [right; left; discriminate|].
  apply (redis_cache_writes_only_its_key as_text as_text);
    [right; left; discriminate|reflexivity].
Defined.

Lemma prefix_append (p s : string) : String.prefix p (p ++ s) = true.
Proof.
  induction p as [|a p IH].
  - now destruct s.
  - change (String a p ++ s)%string with (String a (p ++ s)%string).
    cbn [String.prefix]. destruct (ascii_dec a a); [exact IH|congruence].
Qed.

(** X13. After an update that returned [True], no page that
    [get_products_redis] stored is left, whatever its arguments were: the
    next call reads the table again and returns the page of the updated
    table. *)
Theorem update_product_invalidates_redis_pages
    (dumps : page_result -> option string)
    (loads : string -> option page_result)
    (product_id : Z) (n : option string) (p : option Z) (d : option string)
    (w : world) (page per_page : Z) :
  fst (Products.update_product product_id n p d w) = true ->
  (forall r : page_result, is_Some (dumps r)) ->
  let w' := snd (Products.update_product product_id n p d w) in
  (forall (args : list RedisCache.pyval)
          (kwargs : list (string * RedisCache.pyval)),
     Redis.get w' (RedisCache.cache_key "products_list" args kwargs) = None)
  /\ fst (get_products_redis dumps loads page per_page w')
     = fst (get_products_redis_body page per_page w').
Proof.
  intros Hok Hd w'.
  destruct (update_product_clears_redis product_id n p d w Hok) as [_ Hc].
  fold w' in Hc.
  assert (Hnone : forall args kwargs,
            Redis.get w' (RedisCache.cache_key "products_list" args kwargs)
            = None).
  { intros args kwargs. apply Hc. unfold RedisCache.cache_key.
    change ("products_list" ++ ":" ++ ?x)%string
      with ("products_list:" ++ x)%string.
    apply prefix_append. }
  split; [exact Hnone|].
  unfold get_products_redis, redis_cache. rewrite Hnone.
  unfold call_and_store, get_products_redis_body.
  destruct (per_page =? 0); [reflexivity|].
  destruct (Hd {| pr_products :=
                    Products.select_page per_page ((page - 1) * per_page)
                      (table w');
                  pr_page := page; pr_per_page := per_page;
                  pr_total := Z.of_nat (length (table w'));
                  pr_pages := (Z.of_nat (length (table w')) + per_page - 1)
                              / per_page |}) as [s ->].
  reflexivity.
Qed.

Lemma update_product_invalidates_redis_pages_witness :
  let dumps : page_result -> option string := fun _ => Some "page"%string in
  let loads : string -> option page_result := fun _ => None in
  let w := Products.start 0 [Products.sample_row 1; Products.sample_row 2]
             {[ "products_list:(1, 10):{}"%string :=
                  {| value := "page"%string; deadline := Some 30000 |} ]} in
  let w' := snd (Products.update_product 2 (Some "Lamp"%string) None None w) in
  fst (Products.update_product 2 (Some "Lamp"%string) None None w) = true
  /\ (forall r : page_result, is_Some (dumps r))
  /\ Redis.get w (RedisCache.cache_key "products_list"
                    [RedisCache.PyInt 1; RedisCache.PyInt 10] [])
     = Some "page"%string
  /\ Redis.get w' (RedisCache.cache_key "products_list"
                     [RedisCache.PyInt 1; RedisCache.PyInt 10] [])
     = None
  /\ fst (get_products_redis dumps loads 1 10 w')
     = fst (get_products_redis_body 1 10 w').
Proof.
  intros dumps loads w w'.
  assert (Hd : forall r : page_result, is_Some (dumps r))
    by (intros r; exists "page"%string; reflexivity).
  split; [reflexivity|]. split; [exact Hd|]. split; [reflexivity|].
  destruct (update_product_invalidates_redis_pages dumps loads 2
              (Some "Lamp"%string) None None w 1 10 eq_refl Hd) as [H1 H2].
  split; [apply H1|exact H2].
Defined.

End DecoratorRuns.

(* ===================================================================== *)
(** * [get_with_stampede_protection]: one caller *)
(* ===================================================================== *)

Section StampedeMore.
Import World Stampede.
Context {V : Type} (dumps : V -> option string) (loads : string -> option V).

Abbreviation protected := (get_with_stampede_protection dumps loads).

Lemma protected_hit (depth : nat) (key : string) (ttl : Z)
    (fallback_function : producer (V:=V)) (lock_timeout : Z) (w : world)
    (s : string) :
  Redis.get w key = Some s ->
  protected (S depth) key ttl fallback_function lock_timeout w
  = (loaded loads s, w).
Proof. intros H. cbn [get_with_stampede_protection]. now rewrite H. Qed.

Lemma protected_acquire (depth : nat) (key : string) (ttl : Z)
    (fallback_function : producer (V:=V)) (lock_timeout : Z) (w : world) :
  Redis.get w key = None ->
  Redis.lookup w (lock_key_of key) = None ->
  protected (S depth) key ttl fallback_function lock_timeout w
  = let w2 := Redis.expire (lock_key_of key) lock_timeout
                (set_redis (<[lock_key_of key := held]> (redis w)) w) in
    let (r, w3) := produce_and_store dumps key ttl fallback_function w2 in
    (r, Redis.del (lock_key_of key) w3).
Proof.
  intros Hget Hlock. cbn [get_with_stampede_protection].
  rewrite Hget. unfold Redis.setnx. rewrite Hlock. reflexivity.
Qed.

(** X14. A caller that finds no value and a free lock, whose producer
    returns a value that can be written as JSON, with a positive [ttl]: the
    caller gets the value, the producer ran once, the lock is gone, and for
    the next [ttl] seconds (counted from the end of the producer's run) every
    call returns the stored text decoded, without running any producer. *)
Theorem protected_miss_then_hits (depth : nat) (key : string) (ttl : Z)
    (fallback_function : producer (V:=V)) (lock_timeout : Z) (w : world)
    (elapsed : N) (v : V) (s : string) :
  Redis.get w key = None ->
  Redis.lookup w (lock_key_of key) = None ->
  fallback_function (clock w) = (elapsed, inl v) ->
  dumps v = Some s ->
  0 < ttl ->
  let r := protected (S depth) key ttl fallback_function lock_timeout w in
  fst r = Returned v
  /\ producer_calls (snd r) = S (producer_calls w)
  /\ redis (snd r) !! lock_key_of key = None
  /\ clock (snd r) = clock w + Z.of_N elapsed
  /\ forall (d : Z) (depth' : nat) (f' : producer (V:=V)),
       0 <= d < 1000 * ttl ->
       protected (S depth') key ttl f' lock_timeout (sleep d (snd r))
       = (loaded loads s, sleep d (snd r)).
Proof.
  intros Hget Hlock Hf Hs Httl r. subst r.
  rewrite protected_acquire by assumption. cbv zeta.
  unfold produce_and_store. rewrite clock_expire. cbn [clock set_redis].
  rewrite Hf, Hs. unfold Redis.setex.
  destruct (Z.ltb_spec 0 ttl) as [_|]; [|lia]. cbn [fst snd].
  split; [reflexivity|]. split.
  { cbn [Redis.del producer_calls set_redis sleep set_clock count_call].
    now rewrite producer_calls_expire. }
  split.
  { cbn [Redis.del redis set_redis]. apply lookup_delete_eq. }
  split.
  { cbn [Redis.del clock set_redis sleep set_clock count_call].
    now rewrite clock_expire. }
  intros d depth' f' Hd. apply protected_hit.
  unfold Redis.get, Redis.lookup.
  cbn [Redis.del redis set_redis sleep set_clock count_call clock].
  rewrite lookup_delete_ne by apply lock_key_of_neq.
  rewrite lookup_insert_eq. unfold Redis.live. cbn [deadline value].
  rewrite clock_expire. cbn [clock set_redis].
  destruct (Z.ltb_spec (clock w + Z.of_N elapsed + d)
              (clock w + Z.of_N elapsed + 1000 * ttl)); [reflexivity|lia].
Qed.

(** X15. With a [ttl] that is not positive nothing can be stored: a caller
    that finds no value and a free lock runs the producer, and when the
    producer returns, the call ends with the error of [SETEX]; the value is
    lost, the key is as before and the lock is gone. *)
Theorem protected_rejects_non_positive_ttl (depth : nat) (key : string)
    (ttl : Z) (fallback_function : producer (V:=V)) (lock_timeout : Z)
    (w : world) (elapsed : N) (v : V) (s : string) :
  Redis.get w key = None ->
  Redis.lookup w (lock_key_of key) = None ->
  fallback_function (clock w) = (elapsed, inl v) ->
  dumps v = Some s ->
  ttl <= 0 ->
  let r := protected (S depth) key ttl fallback_function lock_timeout w in
  fst r = Raised ResponseError
  /\ producer_calls (snd r) = S (producer_calls w)
  /\ redis (snd r) !! key = redis w !! key
  /\ redis (snd r) !! lock_key_of key = None.
Proof.
  intros Hget Hlock Hf Hs Httl r. subst r.
  rewrite protected_acquire by assumption. cbv zeta.
  unfold produce_and_store. rewrite clock_expire. cbn [clock set_redis].
  rewrite Hf, Hs. unfold Redis.setex.
  destruct (Z.ltb_spec 0 ttl) as [|_]; [lia|]. cbn [fst snd].
  split; [reflexivity|]. split.
  { cbn [Redis.del producer_calls set_redis sleep set_clock count_call].
    now rewrite producer_calls_expire. }
  split.
  { cbn [Redis.del redis set_redis sleep set_clock count_call].
    rewrite lookup_delete_ne by apply lock_key_of_neq.
    rewrite redis_expire_other by (intros E; symmetry in E;
                                   revert E; apply lock_key_of_neq).
    cbn [redis set_redis]. apply lookup_insert_ne, lock_key_of_neq. }
  cbn [Redis.del redis set_redis]. apply lookup_delete_eq.
Qed.

(** ** A lock that expires *)

Lemma waiting_prefix (k depth : nat) (key : string) (ttl : Z)
    (fallback_function : producer (V:=V)) (lock_timeout : Z)
    (w : world) (e : redis_entry) :
  redis w !! key = None ->
  redis w !! lock_key_of key = Some e ->
  (forall i : nat, (i < k)%nat ->
     Redis.live (clock w + 100 * Z.of_nat i) e = true) ->
  protected (k + depth) key ttl fallback_function lock_timeout w
  = protected depth key ttl fallback_function lock_timeout
      (sleep (100 * Z.of_nat k) w).
Proof.
  revert w. induction k as [|k IH]; intros w Hkey Hlock Hlive.
  - cbn [Nat.add]. now rewrite sleep_zero.
  - cbn [Nat.add].
    rewrite (waiting_pass dumps loads (k + depth) key ttl fallback_function
               lock_timeout w e); [|exact Hkey|exact Hlock|].
    + rewrite IH; [|exact Hkey|exact Hlock|].
      * rewrite sleep_sleep. do 2 f_equal. lia.
      * intros i Hi. specialize (Hlive (S i) ltac:(lia)).
        cbn [sleep set_clock clock].
        replace (clock w + 100 + 100 * Z.of_nat i)
          with (clock w + 100 * Z.of_nat (S i)) by lia.
        exact Hlive.
    + specialize (Hlive 0%nat ltac:(lia)).
      now replace (clock w + 100 * Z.of_nat 0) with (clock w) in Hlive by lia.
Qed.

(** X16. A lock that carries an expiry does not block for ever: a caller
    that finds the lock held and no value sleeps a tenth of a second at a
    time until the lock's deadline has passed, then takes the lock itself and
    runs the producer, provided the interpreter allows that many calls. *)
Theorem protected_takes_over_expired_lock (k depth : nat) (key : string)
    (ttl : Z) (fallback_function : producer (V:=V)) (lock_timeout : Z)
    (w : world) (val : string) (due : Z) :
  redis w !! key = None ->
  redis w !! lock_key_of key = Some {| value := val; deadline := Some due |} ->
  clock w + 100 * (Z.of_nat k - 1) < due <= clock w + 100 * Z.of_nat k ->
  let r := protected (k + S depth) key ttl fallback_function lock_timeout w in
  producer_calls (snd r) = S (producer_calls w)
  /\ redis (snd r) !! lock_key_of key = None
  /\ clock w + 100 * Z.of_nat k <= clock (snd r)
  /\ fst r <> Raised RecursionError.
Proof.
  intros Hkey Hlock Hdue r. subst r.
  rewrite (waiting_prefix k (S depth) key ttl fallback_function lock_timeout w
             {| value := val; deadline := Some due |});
    [|exact Hkey|exact Hlock|].
  2:{ intros i Hi. unfold Redis.live. cbn [deadline].
      apply Z.ltb_lt. lia. }
  rewrite protected_acquire.
  2:{ unfold Redis.get, Redis.lookup. cbn [redis sleep set_clock].
      now rewrite Hkey. }
  2:{ unfold Redis.lookup. cbn [redis sleep set_clock clock]. rewrite Hlock.
      unfold Redis.live. cbn [deadline].
      destruct (Z.ltb_spec (clock w + 100 * Z.of_nat k) due); [lia|reflexivity]. }
  cbv zeta. unfold produce_and_store. rewrite clock_expire.
  cbn [clock set_redis sleep set_clock].
  destruct (fallback_function (clock w + 100 * Z.of_nat k))
    as [elapsed [v|msg]]; pose proof (N2Z.is_nonneg elapsed).
  - destruct (dumps v) as [s|]; [unfold Redis.setex; destruct (0 <? ttl)|];
      cbn [fst snd Redis.del producer_calls redis clock set_redis sleep
             set_clock count_call];
      rewrite ?producer_calls_expire, ?clock_expire;
      cbn [producer_calls clock set_redis set_clock];
      (split; [reflexivity|]); (split; [apply lookup_delete_eq|]);
      (split; [cbn [clock sleep set_clock]; lia|discriminate]).
  - cbn [fst snd Redis.del producer_calls redis clock set_redis sleep
           set_clock count_call].
    rewrite ?producer_calls_expire, ?clock_expire.
    cbn [producer_calls clock set_redis set_clock].
    split; [reflexivity|]. split; [apply lookup_delete_eq|].
    split; [cbn [clock sleep set_clock]; lia|discriminate].
Qed.

End StampedeMore.

Section StampedeMoreRuns.
Import World Stampede.

Abbreviation text := (@Some string).

Lemma protected_miss_then_hits_witness :
  let f : producer (V:=string) := fun _ => (200%N, inl "fresh"%string) in
  let w := empty_world 0 in
  let r := get_with_stampede_protection text text 1 "page:1" 30 f 5 w in
  Redis.get w "page:1" = None
  /\ Redis.lookup w (lock_key_of "page:1") = None
  /\ 0 < 30
  /\ fst r = Returned "fresh"%string
  /\ get_with_stampede_protection text text 1 "page:1" 30
       (fun _ => (0%N, inr "never called"%string)) 5 (sleep 29999 (snd r))
     = (Returned "fresh"%string, sleep 29999 (snd r)).
Proof.
  intros f w r. split; [reflexivity|]. split; [reflexivity|]. split; [lia|].
  destruct (protected_miss_then_hits text text 0 "page:1" 30 f 5 w 200%N
              "fresh" "fresh") as (H1 & _ & _ & _ & H5);
    [reflexivity|reflexivity|reflexivity|reflexivity|lia|].
  split; [exact H1|]. apply H5. lia.
Defined.

Lemma protected_rejects_non_positive_ttl_witness :
  let f : producer (V:=string) := fun _ => (200%N, inl "fresh"%string) in
  let w := empty_world 0 in
  let r := get_with_stampede_protection text text 1 "page:1" 0 f 5 w in
  Redis.get w "page:1" = None
  /\ Redis.lookup w (lock_key_of "page:1") = None
  /\ 0 <= 0
  /\ fst r = Raised ResponseError
  /\ producer_calls (snd r) = 1%nat
  /\ redis (snd r) = ∅.
Proof.
  intros f w r. split; [reflexivity|]. split; [reflexivity|]. split; [lia|].
  destruct (protected_rejects_non_positive_ttl text text 0 "page:1" 0 f 5 w
              200%N "fresh" "fresh") as (H1 & H2 & _);
    [reflexivity|reflexivity|reflexivity|reflexivity|lia|].
  split; [exact H1|]. split; [exact H2|]. reflexivity.
Defined.

Lemma protected_takes_over_expired_lock_witness :
  let f : producer (V:=string) := fun _ => (200%N, inl "fresh"%string) in
  let w := set_redis {[ lock_key_of "page:1" :=
                          {| value := "locked"; deadline := Some 5000 |} ]}
             (empty_world 0) in
  let r := get_with_stampede_protection text text (50 + 1) "page:1" 30 f 5 w in
  redis w !! "page:1"%string = None
  /\ 0 + 100 * (Z.of_nat 50 - 1) < 5000 <= 0 + 100 * Z.of_nat 50
  /\ producer_calls (snd r) = 1%nat
  /\ fst r = Returned "fresh"%string.
Proof.
  intros f w r. split; [reflexivity|]. split; [lia|].
  destruct (protected_takes_over_expired_lock text text 50 0 "page:1" 30 f 5 w
              "locked" 5000) as (H1 & _);
    [reflexivity|reflexivity|cbn; lia|].
  split; [exact H1|]. reflexivity.
Defined.

Lemma lock_released_on_every_exit_witness :
  let f : producer (V:=string) := fun _ => (200%N, inl "fresh"%string) in
  let w := empty_world 0 in
  Redis.get w "page:1" = None
  /\ Redis.lookup w (lock_key_of "page:1") = None
  /\ redis (snd (get_with_stampede_protection (fun _ => None) text 1
                   "page:1" 30 f 5 w))
       !! lock_key_of "page:1" = None.
Proof.
  intros f w. split; [reflexivity|]. split; [reflexivity|].
  apply (lock_released_on_every_exit (fun _ => None) text 0 "page:1" 30 f 5 w);
    reflexivity.
Defined.

End StampedeMoreRuns.

(* ===================================================================== *)
(** * [get_with_stampede_protection]: one producer at a time *)
(* ===================================================================== *)

Section ExclusionFacts.
Import World Stampede Exclusion.
Context {V : Type} (dumps : V -> option string) (loads : string -> option V).

Lemma in_section_dec (p : pc (V:=V)) : {in_section p} + {~ in_section p}.
Proof. destruct p; cbn; auto. Qed.

Lemma ticks_cons (ev : event) (schedule : list event) :
  ticks (ev :: schedule) = ticks [ev] + ticks schedule.
Proof. unfold ticks. destruct ev; cbn [fold_right]; lia. Qed.

Lemma ticks_nonneg (schedule : list event) : 0 <= ticks schedule.
Proof.
  induction schedule as [|ev l IH]; [unfold ticks; cbn; lia|].
  rewrite ticks_cons. destruct ev as [i|ms]; unfold ticks at 1;
    cbn [fold_right]; [lia|]. pose proof (N2Z.is_nonneg ms). lia.
Qed.

Lemma clock_step (key : string) (ttl : Z) (f : producer (V:=V))
    (lock_timeout : Z) (s : system) (ev : event) :
  clock (shared (step dumps loads key ttl f lock_timeout s ev))
  = clock (shared s) + ticks [ev].
Proof.
  destruct ev as [i|ms]; cbn [step ticks fold_right].
  - destruct (callers s !! i) as [p|]; [|lia].
    destruct p as [d|d| | |u r|v|r|u d|r]; cbn [step_caller].
    + destruct (Redis.get _ _); cbn; lia.
    + unfold Redis.setnx. destruct (Redis.lookup _ _); cbn; lia.
    + cbn. rewrite clock_expire. lia.
    + destruct (f _). cbn. lia.
    + destruct (_ <? _); [|destruct r]; cbn; lia.
    + destruct (dumps v); [unfold Redis.setex; destruct (0 <? ttl)|];
        cbn; lia.
    + cbn. lia.
    + destruct (_ <? _); [|destruct d]; cbn; lia.
    + cbn. lia.
  - cbn. lia.
Qed.

(** A caller outside the section moves and the world stays; or it takes the
    free lock. *)
Lemma exclusive_step (key : string) (ttl : Z) (f : producer (V:=V))
    (lock_timeout : Z) (bound : Z) (s : system) (ev : event) :
  0 < lock_timeout ->
  bound <= clock (shared s) + 1000 * lock_timeout ->
  clock (shared s) < bound ->
  exclusive key bound s ->
  exclusive key bound (step dumps loads key ttl f lock_timeout s ev).
Proof.
  intros Hlt Hb Hc (Hone & Hfree & Hheld).
  destruct ev as [i|ms]; cbn [step]; [|split; [|split]; assumption].
  destruct (callers s !! i) as [p|] eqn:Hp; [|split; [|split]; assumption].
  (* the facts about a list with one place changed *)
  assert (Hlen : (i < length (callers s))%nat)
    by (eapply lookup_lt_Some; exact Hp).
  assert (Hins : forall (p' : pc) (j : nat) (q : pc),
            <[i := p']> (callers s) !! j = Some q ->
            (j = i /\ q = p') \/ (j <> i /\ callers s !! j = Some q)).
  { intros p' j q Hq. destruct (decide (j = i)) as [->|Hne].
    - rewrite list_lookup_insert_eq in Hq by exact Hlen.
      injection Hq as <-. auto.
    - rewrite list_lookup_insert_ne in Hq by congruence. auto. }
  (* the three ways a step can go *)
  assert (Stay : forall (p' : pc) (w' : world),
            (in_section p' -> in_section p) ->
            (in_section p -> in_section p') ->
            redis w' !! lock_key_of key = redis (shared s) !! lock_key_of key ->
            exclusive key bound {| callers := <[i := p']> (callers s);
                                   shared := w' |}).
  { intros p' w' Hin Hout Hr. split; [|split]; cbn [callers shared].
    - intros a b pa pb Ha Hb' Sa Sb.
      destruct (Hins _ _ _ Ha) as [[-> ->]|[Na Ha']],
               (Hins _ _ _ Hb') as [[-> ->]|[Nb Hb'']]; auto.
      + symmetry. apply (Hone b i pb p); auto.
      + apply (Hone a i pa p); auto.
      + apply (Hone a b pa pb); auto.
    - intros Hnone. rewrite Hr. apply Hfree. intros j q Hq Sq.
      destruct (decide (j = i)) as [->|Hne].
      + rewrite Hp in Hq. injection Hq as <-.
        apply (Hnone i p'); [|auto].
        now apply list_lookup_insert_eq.
      + apply (Hnone j q); [|exact Sq].
        now rewrite list_lookup_insert_ne by congruence.
    - intros j q Hq Sq. rewrite Hr.
      destruct (Hins _ _ _ Hq) as [[-> ->]|[Nj Hq']].
      + apply (Hheld i p); auto.
      + apply (Hheld j q); auto. }
  destruct p as [d|d| | |u r|v|r|u d|r]; cbn [step_caller].
  - (* GET *)
    destruct (Redis.get _ _); apply Stay; cbn; auto.
  - (* SETNX *)
    unfold Redis.setnx.
    destruct (Redis.lookup (shared s) (lock_key_of key)) as [e|] eqn:Hl.
    + apply Stay; cbn; auto.
    + (* the lock is free: nobody holds it *)
      assert (Hnobody : forall (j : nat) (q : pc),
                callers s !! j = Some q -> ~ in_section q).
      { intros j q Hq Sq. destruct (Hheld j q Hq Sq) as (e & He & Hd).
        unfold Redis.lookup in Hl. rewrite He in Hl. unfold Redis.live in Hl.
        destruct (deadline e) as [due|]; [|discriminate].
        destruct (Z.ltb_spec (clock (shared s)) due); [discriminate|lia]. }
      split; [|split]; cbn [callers shared redis set_redis].
      * intros a b pa pb Ha Hb' Sa Sb.
        destruct (Hins _ _ _ Ha) as [[-> ->]|[Na Ha']],
                 (Hins _ _ _ Hb') as [[-> ->]|[Nb Hb'']]; auto;
          exfalso; eapply Hnobody; eauto.
      * intros Hnone. exfalso. apply (Hnone i AtExpire); [|exact I].
        now apply list_lookup_insert_eq.
      * intros j q Hq Sq. exists held. split; [apply lookup_insert_eq|exact I].
  - (* EXPIRE *)
    destruct (Hheld i AtExpire Hp I) as (e & He & Hd).
    unfold Redis.expire.
    destruct (Redis.lookup (shared s) (lock_key_of key)) as [e'|] eqn:Hl;
      [|apply Stay; cbn; auto].
    destruct (Z.leb_spec lock_timeout 0); [lia|].
    split; [|split]; cbn [callers shared redis set_redis].
    + intros a b pa pb Ha Hb' Sa Sb.
      destruct (Hins _ _ _ Ha) as [[-> ->]|[Na Ha']],
               (Hins _ _ _ Hb') as [[-> ->]|[Nb Hb'']]; auto.
      * symmetry. apply (Hone b i pb AtExpire); auto; try exact I.
      * apply (Hone a i pa AtExpire); auto; try exact I.
      * apply (Hone a b pa pb); auto.
    + intros Hnone. exfalso. apply (Hnone i AtFallback); [|exact I].
      now apply list_lookup_insert_eq.
    + intros j q Hq Sq. eexists. split; [apply lookup_insert_eq|].
      cbn [deadline]. lia.
  - (* the producer starts *)
    destruct (f (clock (shared s))) as [elapsed r].
    apply Stay; cbn; auto.
  - (* the producer runs *)
    destruct (clock (shared s) <? u); [|destruct r]; apply Stay; cbn; auto.
  - (* SETEX *)
    destruct (dumps v) as [js|]; [|apply Stay; cbn; auto].
    unfold Redis.setex. destruct (0 <? ttl); apply Stay; cbn; auto.
    apply lookup_insert_ne. intros E. symmetry in E. revert E.
    apply lock_key_of_neq.
  - (* DEL of the lock *)
    split; [|split]; cbn [callers shared redis set_redis Redis.del].
    + intros a b pa pb Ha Hb' Sa Sb.
      destruct (Hins _ _ _ Ha) as [[-> ->]|[Na Ha']],
               (Hins _ _ _ Hb') as [[-> ->]|[Nb Hb'']]; auto;
        try contradiction.
      apply (Hone a b pa pb); auto.
    + intros _. apply lookup_delete_eq.
    + intros j q Hq Sq. exfalso.
      destruct (Hins _ _ _ Hq) as [[-> ->]|[Nj Hq']]; [contradiction|].
      apply Nj. apply (Hone j i q (AtRelease r)); auto; try exact I.
  - (* sleeping *)
    destruct (clock (shared s) <? u); [|destruct d]; apply Stay; cbn; auto.
  - apply Stay; cbn; auto.
Qed.

Lemma exclusive_run (key : string) (ttl : Z) (f : producer (V:=V))
    (lock_timeout : Z) (bound : Z) (schedule : list event) (s : system) :
  0 < lock_timeout ->
  bound <= clock (shared s) + 1000 * lock_timeout ->
  clock (shared s) + ticks schedule < bound ->
  exclusive key bound s ->
  exclusive key bound (run dumps loads key ttl f lock_timeout schedule s).
Proof.
  intros Hlt. revert s.
  induction schedule as [|ev schedule IH]; intros s Hb Hc Hs; [exact Hs|].
  cbn [run fold_left].
  pose proof (ticks_nonneg schedule) as Hnn.
  pose proof (ticks_nonneg [ev]) as Hev.
  pose proof (ticks_cons ev schedule) as Hsplit.
  pose proof (clock_step key ttl f lock_timeout s ev) as Hck.
  apply IH.
  - lia.
  - lia.
  - apply exclusive_step; [exact Hlt|exact Hb|lia|exact Hs].
Qed.

(** X17. While less than [lock_timeout] seconds have passed since the
    callers entered (with the lock free), at most one caller at a time is
    between its [SETNX] and the end of its [finally]: the producer never runs
    in two callers at once. *)
Theorem one_producer_at_a_time (key : string) (ttl : Z)
    (f : producer (V:=V)) (lock_timeout : Z) (n depth : nat) (w : world)
    (schedule : list event) :
  0 < lock_timeout ->
  redis w !! lock_key_of key = None ->
  ticks schedule < 1000 * lock_timeout ->
  at_most_one_holder
    (run dumps loads key ttl f lock_timeout schedule (enter n depth w)).
Proof.
  intros Hlt Hfree Ht.
  apply (exclusive_run key ttl f lock_timeout
           (clock w + 1000 * lock_timeout) schedule (enter n depth w));
    [exact Hlt|cbn; lia|cbn; lia|].
  assert (Hw : forall (i : nat) (p : pc (V:=V)),
            callers (enter n depth w) !! i = Some p -> ~ in_section p).
  { intros i p Hp. cbn [enter callers] in Hp.
    apply lookup_replicate in Hp as [-> _]. exact (fun x => x). }
  split; [|split].
  - intros i j p q Hp _ Sp. exfalso. exact (Hw i p Hp Sp).
  - intros _. exact Hfree.
  - intros i p Hp Sp. exfalso. exact (Hw i p Hp Sp).
Qed.

End ExclusionFacts.

Section ExclusionRuns.
Import World Stampede Exclusion.

Abbreviation txt := (@Some string).

Lemma one_producer_at_a_time_witness :
  let f : producer (V:=string) := fun _ => (200%N, inl "fresh"%string) in
  let schedule := [Run 0; Run 1; Run 1; Run 0; Run 1; Run 1; Tick 100;
                   Run 0; Run 1; Tick 100; Run 1; Run 0; Run 0]%nat in
  let s := run txt txt "page:1" 30 f 5 schedule (enter 2 100 (empty_world 0)) in
  0 < 5
  /\ ticks schedule < 1000 * 5
  /\ callers s !! 1%nat = Some (AtSetex "fresh"%string)
  /\ forall p, callers s !! 0%nat = Some p -> ~ in_section p.
Proof.
  intros f schedule s. split; [lia|]. split; [cbn; lia|].
  split; [reflexivity|].
  intros p Hp Sp.
  pose proof (one_producer_at_a_time txt txt "page:1" 30 f 5 2 100
                (empty_world 0) schedule ltac:(lia) eq_refl
                ltac:(cbn; lia)) as H.
  specialize (H 0%nat 1%nat p (AtSetex "fresh"%string) Hp eq_refl Sp I).
  discriminate H.
Defined.

End ExclusionRuns.

(* ===================================================================== *)
(** * The cache of [fibonacci_cached]; [init_db] *)
(* ===================================================================== *)

Section LruFacts.
Import Calculator.

Lemma cache_remove_length (c : lru) (k v : Z) :
  cache_get k c = Some v -> S (length (cache_remove k c)) = length c.
Proof.
  induction c as [|[k' v'] c IH]; cbn [cache_get cache_remove];
    [discriminate|].
  destruct (Z.eqb k k'); [reflexivity|]. intros H. cbn [length]. auto.
Qed.

Lemma fibonacci_cached_length (n : Z) (c : lru) :
  (length c <= maxsize)%nat ->
  (length (snd (fibonacci_cached n c)) <= maxsize)%nat.
Proof.
  funelim (fibonacci_cached n c); intros Hl; cbn [snd].
  - unfold move_to_front. cbn [length].
    match goal with E : cache_get _ _ = Some _ |- _ =>
      rewrite (cache_remove_length _ _ _ E) end.
    exact Hl.
  - now apply cache_store_length.
  - apply cache_store_length.
    repeat match goal with
      | IH : (length ?c' <= maxsize)%nat -> _,
        Hc : (length ?c' <= maxsize)%nat |- _ => specialize (IH Hc)
      | E : fibonacci_cached ?m ?c' = _,
        IH : context [fibonacci_cached ?m ?c'] |- _ =>
          rewrite E in IH; cbn [snd] in IH
      end.
    assumption.
Qed.

(** X18. However many calls were served, the cache of [fibonacci_cached]
    never holds more than 128 results. *)
Theorem lru_cache_stays_within_maxsize (calls : list Z) :
  (length (after_calls calls) <= 128)%nat.
Proof.
  unfold after_calls.
  assert (G : forall c : lru, (length c <= maxsize)%nat ->
            (length (fold_left (fun c n => snd (fibonacci_cached n c)) calls c)
             <= maxsize)%nat).
  { induction calls as [|n calls IH]; cbn [fold_left]; intros c Hc;
      [exact Hc|]. apply IH, fibonacci_cached_length, Hc. }
  apply (G []). cbn. unfold maxsize. lia.
Qed.

Lemma fibonacci_cached_keeps_argument (n : Z) (c : lru) :
  cache_sound c ->
  cache_get n (snd (fibonacci_cached n c)) = Some (fibonacci_uncached n).
Proof.
  intros Hs.
  destruct (fibonacci_cached_spec n c Hs) as [Hv Hs'].
  assert (St : forall (v : Z) (c' : lru),
            cache_sound c' -> v = fibonacci_uncached n ->
            cache_get n (cache_store n v c') = Some (fibonacci_uncached n)).
  { intros v c' Hc' ->. unfold cache_store.
    destruct (cache_get n c') as [v'|] eqn:E.
    - rewrite E. f_equal. eapply cache_get_sound; eauto.
    - destruct (maxsize <=? length c')%nat; cbn [cache_get];
        now rewrite Z.eqb_refl. }
  revert Hv Hs'. funelim (fibonacci_cached n c); cbn [fst snd]; intros Hv Hs'.
  - unfold move_to_front. cbn [cache_get]. rewrite Z.eqb_refl. now f_equal.
  - apply St; [exact Hs|exact Hv].
  - match goal with |- cache_get _ (cache_store _ ?v ?c') = _ =>
      assert (Hc2 : cache_sound c') end.
    { repeat match goal with
        | IH : cache_sound ?c' -> _, Hc : cache_sound ?c' |- _ =>
            clear IH
        end.
      match goal with
      | E1 : fibonacci_cached (n - 1) c = (_, ?c1),
        E2 : fibonacci_cached (n - 2) ?c1 = (_, ?c2) |- cache_sound ?c2 =>
          pose proof (fibonacci_cached_spec (n - 1) c Hs) as [_ S1];
          rewrite E1 in S1; cbn [snd] in S1;
          pose proof (fibonacci_cached_spec (n - 2) c1 S1) as [_ S2];
          rewrite E2 in S2; exact S2
      end. }
    apply St; [exact Hc2|exact Hv].
Qed.

(** X19. A call of [fibonacci_cached] leaves its result in the cache under
    its argument: the same call made again is a hit, which returns the same
    value and only moves the entry to the front. *)
Theorem fibonacci_cached_again_is_a_hit (calls : list Z) (n : Z) :
  let c := snd (fibonacci_cached n (after_calls calls)) in
  cache_get n c = Some (fibonacci_uncached n)
  /\ fibonacci_cached n c
     = (fibonacci_uncached n, move_to_front n (fibonacci_uncached n) c).
Proof.
  intros c.
  assert (H : cache_get n c = Some (fibonacci_uncached n))
    by apply fibonacci_cached_keeps_argument, after_calls_sound.
  split; [exact H|]. simp fibonacci_cached. rewrite H. reflexivity.
Qed.

End LruFacts.

Section DatabaseFacts.
Import World Database.

Lemma insert_keeps_stored (now : Z) (l : list Z) (c : connection) :
  stored (fold_left (insert_sample now) l c) = stored c.
Proof.
  revert c. induction l as [|i l IH]; intros c; [reflexivity|].
  cbn [fold_left]. now rewrite IH.
Qed.

(** X20. [init_db] inserts its thousand sample rows inside a connection and
    never commits: seen from inside the connection an empty table gets the
    rows with ids 1 to 1000, and once the connection is closed the table is
    what it was before: nothing is stored. *)
Theorem init_db_stores_nothing (w : world) :
  table (snd (init_db w)) = table w
  /\ fst (init_db w) = inl tt
  /\ (table w = [] ->
      map id (seen (snd (init_db_body (clock w) (connect w))))
      = map Z.of_nat (seq 1 1000)).
Proof.
  unfold init_db, get_db_connection, init_db_body, connect. cbn [seen].
  destruct (length (table w) =? 0)%nat eqn:E; cbn [fst snd table set_table].
  - rewrite insert_keeps_stored. cbn [stored]. split; [reflexivity|].
    split; [reflexivity|]. intros ->. vm_compute. reflexivity.
  - split; [reflexivity|]. split; [reflexivity|]. intros H.
    rewrite H in E. discriminate E.
Qed.

(** The change of [update_product] is committed, so it survives the close:
    run as a body of the connection it gives the table [update_product]
    leaves. *)
Lemma update_body_is_update_product (product_id : Z) (n : option string)
    (p : option Z) (d : option string) (w : world) :
  fst (get_db_connection (update_body product_id n p d) w)
  = inl (fst (Products.update_product product_id n p d w))
  /\ table (snd (get_db_connection (update_body product_id n p d) w))
     = table (snd (Products.update_product product_id n p d w)).
Proof.
  unfold get_db_connection, update_body, Products.update_product, connect.
  destruct n, p, d; split; reflexivity.
Qed.

End DatabaseFacts.

(* ===================================================================== *)
(** * The wrapper of [redis_cache]: failures *)
(* ===================================================================== *)

Section DecoratorFailures.
Import World Decorator.
Context {V : Type} (dumps : V -> option string) (loads : string -> option V).

(** X23. The wrapper stores nothing when the call fails: when the function
    raises, when its result cannot be written as JSON, or when [ttl] is not
    positive, the caller gets an exception (the function's own in the first
    case) and the world is the one the function left. The function has run
    in each case: with a [ttl] that is not positive every call runs it and
    loses its result. *)
Theorem redis_cache_failure_stores_nothing (key_prefix : string) (ttl : Z)
    (f : pyfun (V:=V)) (args : list RedisCache.pyval)
    (kwargs : list (string * RedisCache.pyval)) (w : world) :
  Redis.get w (RedisCache.cache_key key_prefix args kwargs) = None ->
  (exists e : exn, fst (f args kwargs w) = inr e)
  \/ (exists v : V, fst (f args kwargs w) = inl v /\ dumps v = None)
  \/ ttl <= 0 ->
  let r := redis_cache dumps loads key_prefix ttl f args kwargs w in
  (exists e : exn, fst r = inr e)
  /\ (forall e : exn, fst (f args kwargs w) = inr e -> fst r = inr e)
  /\ snd r = snd (f args kwargs w).
Proof.
  intros Hget Hfail r. subst r. unfold redis_cache. rewrite Hget.
  unfold call_and_store, Redis.setex.
  destruct (f args kwargs w) as [[v|e] w1] eqn:Hf; cbn [fst snd] in *.
  - destruct (dumps v) as [s|] eqn:Hs.
    + destruct (Z.ltb_spec 0 ttl) as [Ht|Ht].
      * destruct Hfail as [[e He]|[[v' [Hv Hd]]|Hle]];
          [discriminate He| |lia].
        injection Hv as <-. congruence.
      * cbn [fst snd]. split; [eexists; reflexivity|].
        split; [intros e He; discriminate He|reflexivity].
    + cbn [fst snd]. split; [eexists; reflexivity|].
      split; [intros e He; discriminate He|reflexivity].
  - split; [eexists; reflexivity|]. split; [|reflexivity].
    intros e' He'. exact He'.
Qed.

End DecoratorFailures.

Section MoreRuns.
Import World Products Decorator.

Lemma redis_cache_failure_stores_nothing_witness :
  let f : pyfun (V:=string) := fun _ _ w => (inl "[1, 2]"%string, sleep 40 w) in
  let w := Stampede.empty_world 0 in
  let r := redis_cache (@Some string) (@Some string) "report" 0 f
             [RedisCache.PyInt 7] [] w in
  Redis.get w (RedisCache.cache_key "report" [RedisCache.PyInt 7] []) = None
  /\ 0 <= 0
  /\ fst r = inr ResponseError
  /\ snd r = sleep 40 w.
Proof.
  intros f w r. split; [reflexivity|]. split; [lia|].
  split; [reflexivity|].
  exact (proj2 (proj2
    (redis_cache_failure_stores_nothing (@Some string) (@Some string)
       "report" 0 f [RedisCache.PyInt 7] [] w eq_refl
       (or_intror (or_intror (Z.le_refl 0)))))).
Defined.

Lemma get_product_by_id_ttl_witness :
  let w := sleep 60000
             (snd (get_product_by_id 1 true (start 0 [sample_row 1] ∅))) in
  let e := {| ce_data := Product (sample_row 1) 500; ce_timestamp := 500 |} in
  _cache w !! product_key 1 = Some e
  /\ 60000 <= clock w - ce_timestamp e
  /\ fst (get_product_by_id 1 true w) = fst (get_product_by_id 1 false w).
Proof.
  intros w e.
  assert (He : _cache w !! product_key 1 = Some e) by reflexivity.
  assert (Ht : 60000 <= clock w - ce_timestamp e) by (vm_compute; discriminate).
  split; [exact He|]. split; [exact Ht|].
  exact (proj2 (get_product_by_id_ttl 1 w e He) Ht).
Defined.

End MoreRuns.
